(** * sbpl_manipulation: the occupancy grid facade and the obstacle-file loader

    A shallow embedding of
    - [sbpl_collision_checking/occupancy_grid.h] (class [OccupancyGrid], a thin
      layer over [distance_field::PropagationDistanceField]), and
    - [sbpl_arm_planner_test/src/call_planner.cpp] (the obstacle-file loader
      [getCollisionObjects] / [getCollisionCubes] / [getCollisionCube]).

    Conventions.
    - A C++ [int] argument is a [Z]; the functions below only compare such
      arguments, they never do arithmetic on them.
    - A C++ [double] is an exact rational [Q]: rounding is idealised away.
    - A pointer is a key of a store ([gmap ptr _]); dereferencing a pointer
      that the store does not hold is an error.
    - A call that the C++ code cannot complete (throw, undefined behaviour)
      returns [Err]. *)

From Stdlib Require Import ZArith QArith Qround Qminmax String Ascii List Lia.
From stdpp Require Import base gmap strings list.

Open Scope Z_scope.

(** ** Errors *)

Inductive error : Type :=
  | NullPointer        (* dereference of a pointer with no object behind it *)
  | OutOfBounds        (* cell index outside the grid *)
  | LengthError        (* std::vector::resize with a size above max_size *)
  | OutOfRange         (* vector index past the end *)
  | UninitializedRead  (* read of a buffer that was never written *)
  | BufferOverflow     (* token longer than the scan buffer *)
  | UndefinedConversion. (* floating value outside the integer type's range *)

Inductive result (A : Type) : Type :=
  | Ok (a : A)
  | Err (e : error).
Arguments Ok {A} a.
Arguments Err {A} e.

Definition bind {A B : Type} (r : result A) (k : A → result B) : result B :=
  match r with
  | Ok a => k a
  | Err e => Err e
  end.

Notation "x <- r ;; k" := (bind r (fun x => k))
  (at level 100, r at next level, right associativity).

(** ** Numeric conversions *)

(** Conversion of a floating value to an integer type discards the fractional
    part (rounds toward zero). *)
Definition Qtruncate (q : Q) : Z := Z.quot (Qnum q) (Z.pos (Qden q)).

(** [(unsigned char) v] for a floating [v]: the truncated value when an
    [unsigned char] holds it (0 to 255). The conversion of any other value
    is undefined in C++ (no wrap-around and no clamping is promised), and is
    an error here. *)
Definition to_unsigned_char (q : Q) : result Z :=
  let t := Qtruncate q in
  if (0 <=? t) && (t <=? 255) then Ok t else Err UndefinedConversion.

(** ** The voxel field behind the facade *)

Module distance_field.

Definition cell : Type := Z * Z * Z.

Inductive Dimension : Type := DIM_X | DIM_Y | DIM_Z.

(** Modelled from the spec: class [distance_field::PropagationDistanceField]
    (headers [distance_field/voxel_grid.h] and
    [distance_field/propagation_distance_field.h], only included by the
    sources). The Voxel Field of spec sections 3 and 4: a bounded volume
    with its resolution, origin and propagation radius, and per cell an
    occupancy flag and a cached distance. [cell_ref_] is the position of a
    cell's reference point inside the cell, in cells (0 for the corner,
    1/2 for the center). *)
Record PropagationDistanceField : Type := {
  size_ : Q * Q * Q;
  resolution_ : Q;
  origin_ : Q * Q * Q;
  max_distance_ : Q;
  num_cells_ : Z * Z * Z;
  cell_ref_ : Q;
  occupied_ : gset cell;
  distance_ : cell → Q
}.

(** Modelled from the spec: [getNumCells(dim)], the [dimension_axis] of
    spec section 3 along [dim]. *)
Definition getNumCells (f : PropagationDistanceField) (d : Dimension) : Z :=
  let '(nx, ny, nz) := num_cells_ f in
  match d with DIM_X => nx | DIM_Y => ny | DIM_Z => nz end.

(** Modelled from the spec: a cell is an integer triple with each
    coordinate in [[0, dimension_axis)]. *)
Definition isCellValid (f : PropagationDistanceField) (x y z : Z) : bool :=
  (0 <=? x) && (x <? getNumCells f DIM_X) &&
  (0 <=? y) && (y <? getNumCells f DIM_Y) &&
  (0 <=? z) && (z <? getNumCells f DIM_Z).

(** Modelled from the spec: [getDistance(ix, iy, iz)], section 4.2: lookup
    of the cached value, failing with an OutOfBounds condition when the
    index is outside the grid. *)
Definition getDistanceFromCell (f : PropagationDistanceField) (x y z : Z)
  : result Q :=
  if isCellValid f x y z then Ok (distance_ f (x, y, z)) else Err OutOfBounds.

(** Modelled from the spec: [getOccupancy(ix, iy, iz)], section 4.2, with
    the failure policy of section 7 for direct index-based accessors. *)
Definition getOccupancy (f : PropagationDistanceField) (x y z : Z)
  : result bool :=
  if isCellValid f x y z then Ok (bool_decide ((x, y, z) ∈ occupied_ f))
  else Err OutOfBounds.

(** Modelled from the spec: [worldToGrid], section 4.1:
    [ix = floor((wx - origin_x) / resolution)], no clamping. *)
Definition getCellFromLocation (f : PropagationDistanceField) (o w : Q) : Z :=
  Qfloor ((w - o) / resolution_ f).

(** Modelled from the spec: [worldToGrid], section 4.1, on the three
    axes. *)
Definition worldToGrid (f : PropagationDistanceField) (wx wy wz : Q) : cell :=
  let '(ox, oy, oz) := origin_ f in
  (getCellFromLocation f ox wx,
   getCellFromLocation f oy wy,
   getCellFromLocation f oz wz).

(** Modelled from the spec: [gridToWorld], section 4.1: the world
    coordinate of the cell's reference point (corner or center, as
    [cell_ref_] says). *)
Definition getLocationFromCell (f : PropagationDistanceField) (o : Q) (i : Z)
  : Q :=
  o + (inject_Z i + cell_ref_ f) * resolution_ f.

(** Modelled from the spec: [gridToWorld], section 4.1, on the three
    axes. *)
Definition gridToWorld (f : PropagationDistanceField) (x y z : Z)
  : Q * Q * Q :=
  let '(ox, oy, oz) := origin_ f in
  (getLocationFromCell f ox x,
   getLocationFromCell f oy y,
   getLocationFromCell f oz z).

(** Modelled from the spec: [reset()], section 4.2: every cell unoccupied,
    every distance at the propagation radius. *)
Definition reset (f : PropagationDistanceField) : PropagationDistanceField :=
  {| size_ := size_ f; resolution_ := resolution_ f; origin_ := origin_ f;
     max_distance_ := max_distance_ f; num_cells_ := num_cells_ f;
     cell_ref_ := cell_ref_ f;
     occupied_ := ∅;
     distance_ := λ _, max_distance_ f |}.

(** Modelled from the spec: [markOccupied(cells)], section 4.2: sets the
    flag of each in-bounds cell and drops the others; distances are left
    as they were (the field becomes Stale). *)
Definition markOccupied (f : PropagationDistanceField) (cs : list cell)
  : PropagationDistanceField :=
  {| size_ := size_ f; resolution_ := resolution_ f; origin_ := origin_ f;
     max_distance_ := max_distance_ f; num_cells_ := num_cells_ f;
     cell_ref_ := cell_ref_ f;
     occupied_ :=
       occupied_ f ∪
       list_to_set (filter (λ c, isCellValid f c.1.1 c.1.2 c.2 = true) cs);
     distance_ := distance_ f |}.

(** Modelled from the spec: [addPointsToField(points)], section 4.3: each
    point goes to its containing cell, out-of-bounds points are dropped, no
    propagation is triggered. *)
Definition addPointsToField (f : PropagationDistanceField)
    (pts : list (Q * Q * Q)) : PropagationDistanceField :=
  markOccupied f (map (λ p, worldToGrid f p.1.1 p.1.2 p.2) pts).

(** Distance propagation. [metric a b] is the chosen distance between the
    cells [a] and [b], in cells (chessboard, Manhattan, or a rational
    approximation of the Euclidean one). *)
Section Propagation.

Variable metric : cell → cell → Q.

(** Modelled from the spec: the distance in world units to the nearest of
    the cells of [l], clamped at [far] (section 4.2). *)
Definition clamped_min (res far : Q) (c : cell) (l : list cell) : Q :=
  foldr (λ o acc, Qmin (res * metric c o) acc) far l.

(** Modelled from the spec: the distance in world units from [c] to the
    nearest occupied cell, clamped at the propagation radius. *)
Definition nearest (f : PropagationDistanceField) (c : cell) : Q :=
  clamped_min (resolution_ f) (max_distance_ f) c (elements (occupied_ f)).

(** Modelled from the spec: [propagate()], section 4.2: recomputes the
    distance of every cell; occupancy is left as it is. *)
Definition propagate (f : PropagationDistanceField) : PropagationDistanceField :=
  {| size_ := size_ f; resolution_ := resolution_ f; origin_ := origin_ f;
     max_distance_ := max_distance_ f; num_cells_ := num_cells_ f;
     cell_ref_ := cell_ref_ f;
     occupied_ := occupied_ f;
     distance_ := nearest f |}.

End Propagation.

(** What the propagation needs of the chosen cell metric. *)
Definition is_metric (metric : cell → cell → Q) : Prop :=
  (∀ a b, (0 <= metric a b)%Q) ∧ (∀ a b, (metric a b == 0)%Q ↔ a = b).

(** The chessboard distance between two cells, in cells. *)
Definition chessboard (a b : cell) : Q :=
  let '(ax, ay, az) := a in
  let '(bx, by_, bz) := b in
  inject_Z (Z.max (Z.max (Z.abs (ax - bx)) (Z.abs (ay - by_))) (Z.abs (az - bz))).

(** The Grid invariant of spec section 3: a positive resolution, and a
    propagation radius of at least one resolution. *)
Definition well_formed (f : PropagationDistanceField) : Prop :=
  (0 < resolution_ f)%Q ∧ (resolution_ f <= max_distance_ f)%Q.

(** The reference point of a cell lies in the cell. *)
Definition reference_in_cell (f : PropagationDistanceField) : Prop :=
  (0 <= cell_ref_ f)%Q ∧ (cell_ref_ f < 1)%Q.

End distance_field.

(** ** The facade: class [OccupancyGrid] *)

Module sbpl_arm_planner.

Import distance_field.

Definition ptr : Type := positive.

(** The objects that [grid_] pointers refer to. *)
Abbreviation Heap := (gmap ptr PropagationDistanceField).

Record OccupancyGrid : Type := {
  grid_resolution_ : Q;
  prop_distance_ : Q;
  reference_frame_ : string;
  grid_ : ptr
}.

(** [grid_->] *)
Definition deref (h : Heap) (p : ptr) : result PropagationDistanceField :=
  match h !! p with
  | Some f => Ok f
  | None => Err NullPointer
  end.

Definition getDistanceFieldPtr (g : OccupancyGrid) : ptr := grid_ g.

Definition gridToWorld (h : Heap) (g : OccupancyGrid) (x y z : Z)
  : result (Q * Q * Q) :=
  f <- deref h (grid_ g) ;; Ok (distance_field.gridToWorld f x y z).

Definition worldToGrid (h : Heap) (g : OccupancyGrid) (wx wy wz : Q)
  : result cell :=
  f <- deref h (grid_ g) ;; Ok (distance_field.worldToGrid f wx wy wz).

Definition getDistance (h : Heap) (g : OccupancyGrid) (x y z : Z)
  : result Q :=
  f <- deref h (grid_ g) ;; getDistanceFromCell f x y z.

(** [unsigned char getCell(int x, int y, int z)] *)
Definition getCell (h : Heap) (g : OccupancyGrid) (x y z : Z) : result Z :=
  f <- deref h (grid_ g) ;;
  d <- getDistanceFromCell f x y z ;;
  to_unsigned_char (d / grid_resolution_ g).

(** [double getCell(int *xyz)]; [xyz] is read at 0, 1 and 2. *)
Definition getCell_xyz (h : Heap) (g : OccupancyGrid) (xyz : list Z)
  : result Q :=
  match xyz with
  | x :: y :: z :: _ =>
      f <- deref h (grid_ g) ;; getDistanceFromCell f x y z
  | _ => Err OutOfRange
  end.

Definition isInBounds (h : Heap) (g : OccupancyGrid) (x y z : Z)
  : result bool :=
  f <- deref h (grid_ g) ;;
  Ok ((0 <=? x) && (x <? getNumCells f DIM_X) &&
      (0 <=? y) && (y <? getNumCells f DIM_Y) &&
      (0 <=? z) && (z <? getNumCells f DIM_Z)).

Definition getReferenceFrame (g : OccupancyGrid) : string :=
  reference_frame_ g.

Definition setReferenceFrame (g : OccupancyGrid) (frame : string)
  : OccupancyGrid :=
  {| grid_resolution_ := grid_resolution_ g;
     prop_distance_ := prop_distance_ g;
     reference_frame_ := frame;
     grid_ := grid_ g |}.

(** [addPointsToField]: the points are copied one by one into a vector of
    [tf::Vector3] and handed to the field, which is updated in place. *)
Definition addPointsToField (h : Heap) (g : OccupancyGrid)
    (points : list (Q * Q * Q)) : result Heap :=
  let pts := map (λ p, (p.1.1, p.1.2, p.2)) points in
  f <- deref h (grid_ g) ;;
  Ok (<[grid_ g := distance_field.addPointsToField f pts]> h).

(** Modelled from the spec: the attribute queries that the header declares
    and [occupancy_grid.cpp] defines ([getGridSize], [getWorldSize],
    [getOrigin], [getResolution]), and the occupancy query of spec section
    4.2. Each reads an attribute of the Grid of spec section 3. *)
Definition getGridSize (h : Heap) (g : OccupancyGrid) : result (Z * Z * Z) :=
  f <- deref h (grid_ g) ;;
  Ok (getNumCells f DIM_X, getNumCells f DIM_Y, getNumCells f DIM_Z).

Definition getWorldSize (h : Heap) (g : OccupancyGrid) : result (Q * Q * Q) :=
  f <- deref h (grid_ g) ;; Ok (size_ f).

Definition getOrigin (h : Heap) (g : OccupancyGrid) : result (Q * Q * Q) :=
  f <- deref h (grid_ g) ;; Ok (origin_ f).

Definition getResolution (g : OccupancyGrid) : Q := grid_resolution_ g.

Definition getOccupancy (h : Heap) (g : OccupancyGrid) (x y z : Z)
  : result bool :=
  f <- deref h (grid_ g) ;; distance_field.getOccupancy f x y z.

(** *** The public interface of the class

    The public member functions that the header declares, and what each one
    hands back to its caller: its return type, or for a function that fills
    reference or pointer arguments of the caller, the type of what it stores
    there. *)
Inductive method : Type :=
  | m_gridToWorld | m_worldToGrid | m_getCell | m_getCell_xyz | m_getDistance
  | m_isInBounds | m_getDistanceFieldPtr | m_getGridSize | m_getGridSize_dims
  | m_getWorldSize | m_getOrigin | m_getResolution | m_updateFromCollisionMap
  | m_addCollisionCuboid | m_addPointsToField | m_getVoxelsInBox
  | m_getReferenceFrame | m_setReferenceFrame | m_reset.

Inductive ctype : Type :=
  | t_void | t_bool | t_int | t_unsigned_char | t_double | t_string
  | t_vector3d_list
  | t_field_ptr.   (* distance_field::PropagationDistanceField* *)

Definition hands_back (m : method) : ctype :=
  match m with
  | m_gridToWorld => t_double
  | m_worldToGrid => t_int
  | m_getCell => t_unsigned_char
  | m_getCell_xyz => t_double
  | m_getDistance => t_double
  | m_isInBounds => t_bool
  | m_getDistanceFieldPtr => t_field_ptr
  | m_getGridSize => t_int
  | m_getGridSize_dims => t_int
  | m_getWorldSize => t_double
  | m_getOrigin => t_double
  | m_getResolution => t_double
  | m_updateFromCollisionMap => t_void
  | m_addCollisionCuboid => t_void
  | m_addPointsToField => t_void
  | m_getVoxelsInBox => t_vector3d_list
  | m_getReferenceFrame => t_string
  | m_setReferenceFrame => t_void
  | m_reset => t_void
  end.

(** A value of this type refers to the backing field rather than copying
    from it. *)
Definition is_reference (t : ctype) : bool :=
  match t with t_field_ptr => true | _ => false end.

(** A component outside the grid that holds a pointer to a field and writes
    through it (here: it resets the field). *)
Definition client_reset (h : Heap) (p : ptr) : result Heap :=
  f <- deref h p ;; Ok (<[p := distance_field.reset f]> h).

End sbpl_arm_planner.

(** ** The obstacle-file loader of [call_planner.cpp] *)

Module call_planner.

(** *** Messages *)

Record Point : Type := { x : Q; y : Q; z : Q }.

Record Quaternion : Type := { qx : Q; qy : Q; qz : Q; qw : Q }.

Record Pose : Type := { position : Point; orientation : Quaternion }.

Inductive ShapeType : Type := SPHERE | BOX | CYLINDER | MESH.

Record Shape : Type := { type : ShapeType; dimensions : list Q }.

Inductive CollisionObjectOperation : Type :=
  ADD | REMOVE | DETACH_AND_ADD_AS_OBJECT | ATTACH_AND_REMOVE_AS_OBJECT.

Record CollisionObject : Type := {
  object_id : string;
  operation : CollisionObjectOperation;
  frame_id : string;
  stamp : Z;
  shapes : list Shape;
  poses : list Pose
}.

(** [v[i]] and [v.at(i)]: an index past the end is an error. *)
Definition at_ {A : Type} (v : list A) (i : nat) : result A :=
  match v !! i with
  | Some a => Ok a
  | None => Err OutOfRange
  end.

(** [v.resize(n)] on a vector of doubles: cut, or pad with zeros. *)
Definition resize (n : nat) (v : list Q) : list Q :=
  take n v ++ replicate (n - length v) 0%Q.

(** *** The file stream *)

(** A stream opened for reading: what is left to read, and the end-of-file
    indicator. *)
Record FILE : Type := { rest : list ascii; eof : bool }.

Definition isspace (c : ascii) : bool :=
  let n := nat_of_ascii c in
  (n =? 32)%nat || ((9 <=? n)%nat && (n <=? 13)%nat).

Fixpoint skip_ws (s : list ascii) : list ascii :=
  match s with
  | c :: s' => if isspace c then skip_ws s' else s
  | [] => []
  end.

(** The longest prefix without white space, and what follows it. *)
Fixpoint take_token (s : list ascii) : list ascii * list ascii :=
  match s with
  | c :: s' =>
      if isspace c then ([], s)
      else let '(t, r) := take_token s' in (c :: t, r)
  | [] => ([], [])
  end.

(** The characters of a buffer up to its first NUL, as a string. *)
Fixpoint c_str (t : list ascii) : string :=
  match t with
  | c :: t' => if (nat_of_ascii c =? 0)%nat then EmptyString else String c (c_str t')
  | [] => EmptyString
  end.

(** [char sTemp[1024]] *)
Definition sTemp_size : nat := 1024.

(** [fscanf(fp, "%s", buf)]: skips white space, then stores the next run of
    non-space characters and a NUL in [buf]. At the end of the input the
    indicator is set; when nothing could be read, [buf] is left as it was and
    the call returns [EOF]. *)
Definition fscanf_s (fp : FILE) (buf : option string)
  : result (Z * FILE * option string) :=
  match skip_ws (rest fp) with
  | [] => Ok (-1, {| rest := []; eof := true |}, buf)
  | s =>
      let '(t, r) := take_token s in
      if (sTemp_size <=? length t)%nat then Err BufferOverflow
      else Ok (1,
               {| rest := r;
                  eof := eof fp || match r with [] => true | _ => false end |},
               Some (c_str t))
  end.

Definition feof (fp : FILE) : bool := eof fp.

Definition strlen (s : string) : nat := String.length s.

(** Reading a character buffer. *)
Definition read_buf (buf : option string) : result string :=
  match buf with
  | Some s => Ok s
  | None => Err UninitializedRead
  end.

(** The white-space separated words of a text. *)
Fixpoint tokens_fuel (fuel : nat) (s : list ascii) : list (list ascii) :=
  match fuel with
  | O => []
  | S k =>
      match skip_ws s with
      | [] => []
      | s1 => let '(t, r) := take_token s1 in t :: tokens_fuel k r
      end
  end.

Definition tokens (s : list ascii) : list (list ascii) :=
  tokens_fuel (length s) s.

Section Loader.

(** The C library's conversions, and the clock: [now i] is the value of
    [ros::Time::now()] at its [i]-th call. *)
Variable atoi : string → Z.
Variable atof : string → Q.
Variable now : nat → Z.

(** The files that [fopen] can open for reading, with their contents. *)
Variable fs : gmap string string.

Definition fopen (filename : string) : option FILE :=
  match fs !! filename with
  | Some content => Some {| rest := list_ascii_of_string content; eof := false |}
  | None => None
  end.

Definition getCollisionCube (when : Z) (pose : Pose) (dims : list Q)
    (frame : string) (id : string) : result CollisionObject :=
  d0 <- at_ dims 0 ;;
  d1 <- at_ dims 1 ;;
  d2 <- at_ dims 2 ;;
  let box_object := {| type := BOX; dimensions := [d0; d1; d2] |} in
  Ok {| object_id := id;
        operation := ADD;
        frame_id := frame;
        stamp := when;
        shapes := [box_object];
        poses := [pose] |}.

(** The body of the loop of [getCollisionCubes], and the loop from [i] on. *)
Definition collision_cube_at (objects : list (list Q))
    (object_ids : list string) (frame : string) (i : nat)
  : result CollisionObject :=
  o <- at_ objects i ;;
  px <- at_ o 0 ;;
  py <- at_ o 1 ;;
  pz <- at_ o 2 ;;
  d0 <- at_ o 3 ;;
  d1 <- at_ o 4 ;;
  d2 <- at_ o 5 ;;
  id <- at_ object_ids i ;;
  let pose := {| position := {| x := px; y := py; z := pz |};
                 orientation := {| qx := 0; qy := 0; qz := 0; qw := 1 |} |} in
  getCollisionCube (now i) pose [d0; d1; d2] frame id.

Fixpoint collision_cubes_from (objects : list (list Q))
    (object_ids : list string) (frame : string) (count i : nat)
  : result (list CollisionObject) :=
  match count with
  | O => Ok []
  | S k =>
      c <- collision_cube_at objects object_ids frame i ;;
      cs <- collision_cubes_from objects object_ids frame k (S i) ;;
      Ok (c :: cs)
  end.

Definition getCollisionCubes (objects : list (list Q))
    (object_ids : list string) (frame : string)
  : result (list CollisionObject) :=
  if negb (length object_ids =? length objects)%nat then Ok []
  else collision_cubes_from objects object_ids frame (length objects) 0.

(** The local variables of [getCollisionObjects] that its loops update. *)
Record locals : Type := {
  fCfg : FILE;
  sTemp : option string;
  object_ids : list string;
  objects : list (list Q)
}.

(** [if(fscanf(fCfg,"%s",sTemp) < 1) printf(...)] *)
Definition scan (st : locals) : result locals :=
  r <- fscanf_s (fCfg st) (sTemp st) ;;
  let '(_, fp, buf) := r in
  Ok {| fCfg := fp; sTemp := buf;
        object_ids := object_ids st; objects := objects st |}.

(** [objects[i][j] = v] *)
Definition assign (objs : list (list Q)) (i j : nat) (v : Q)
  : result (list (list Q)) :=
  row <- at_ objs i ;;
  _ <- at_ row j ;;
  Ok (<[i := <[j := v]> row]> objs).

(** The inner loop: [count] fields of record [i], from field [j] on. *)
Fixpoint read_fields (count i j : nat) (st : locals) : result locals :=
  match count with
  | O => Ok st
  | S k =>
      st1 <- scan st ;;
      st2 <- (if feof (fCfg st1) then Ok st1
              else
                s <- read_buf (sTemp st1) ;;
                if (strlen s =? 0)%nat then Ok st1
                else
                  objs <- assign (objects st1) i j (atof s) ;;
                  Ok {| fCfg := fCfg st1; sTemp := sTemp st1;
                        object_ids := object_ids st1; objects := objs |}) ;;
      read_fields k i (S j) st2
  end.

(** The body of the outer loop, for record [i]. *)
Definition read_record (i : nat) (st : locals) : result locals :=
  st1 <- scan st ;;
  id <- read_buf (sTemp st1) ;;
  row <- at_ (objects st1) i ;;
  read_fields 6 i 0
    {| fCfg := fCfg st1; sTemp := sTemp st1;
       object_ids := object_ids st1 ++ [id];
       objects := <[i := resize 6 row]> (objects st1) |}.

(** The outer loop: [count] records, from record [i] on. *)
Fixpoint read_records (count i : nat) (st : locals) : result locals :=
  match count with
  | O => Ok st
  | S k => st1 <- read_record i st ;; read_records k (S i) st1
  end.

Definition getCollisionObjects (filename : string) (frame : string)
  : result (list CollisionObject) :=
  match fopen filename with
  | None => Ok []
  | Some fp =>
      st1 <- scan {| fCfg := fp; sTemp := None; object_ids := []; objects := [] |} ;;
      s <- read_buf (sTemp st1) ;;
      let num_obs := atoi s in
      if num_obs <? 0 then Err LengthError
      else
        let st2 := {| fCfg := fCfg st1; sTemp := sTemp st1;
                      object_ids := [];
                      objects := replicate (Z.to_nat num_obs) [] |} in
        st3 <- read_records (Z.to_nat num_obs) 0 st2 ;;
        getCollisionCubes (objects st3) (object_ids st3) frame
  end.

End Loader.

(** *** Vocabulary of the loader's properties *)

(** A word fits the scan buffer with its final NUL. *)
Definition fits (t : list ascii) : Prop := (length t < sTemp_size)%nat.

(** What the loops of [getCollisionObjects] maintain: the words still to
    read are [ts] and fit the buffer, the buffer has been written, and the
    end-of-file indicator is only set once the input is used up. *)
Definition loader_inv (ts : list (list ascii)) (st : locals) : Prop :=
  tokens (rest (fCfg st)) = ts ∧ Forall fits ts ∧ is_Some (sTemp st) ∧
  (eof (fCfg st) = true → rest (fCfg st) = []).

(** The value of a field after the scan of its word [t] (no word: the input
    has ended), given its value [old] before. *)
Definition field_after (atof : string → Q) (t : option (list ascii)) (old : Q)
  : Q :=
  match t with
  | Some t => if (strlen (c_str t) =? 0)%nat then old else atof (c_str t)
  | None => old
  end.

(** The box that [getCollisionCubes] makes of the record
    [id px py pz d0 d1 d2]. *)
Definition cube_of (when : Z) (frame id : string) (px py pz d0 d1 d2 : Q)
  : CollisionObject :=
  {| object_id := id;
     operation := ADD;
     frame_id := frame;
     stamp := when;
     shapes := [{| type := BOX; dimensions := [d0; d1; d2] |}];
     poses := [{| position := {| x := px; y := py; z := pz |};
                  orientation := {| qx := 0; qy := 0; qz := 0; qw := 1 |} |}] |}.


(** *** Joint states and goal constraints *)

(** [v.resize(n, d)]: cut, or pad with copies of [d]. *)
Definition vresize {A : Type} (n : nat) (d : A) (v : list A) : list A :=
  take n v ++ replicate (n - length v) d.

(** [v[i] = a]: an index past the end is an error. *)
Definition store_at {A : Type} (v : list A) (i : nat) (a : A)
  : result (list A) :=
  _ <- at_ v i ;; Ok (<[i := a]> v).

(** [sensor_msgs::JointState]: its header (sequence number, stamp, frame) and
    its four arrays. *)
Record JointState : Type := {
  js_seq : Z;
  js_stamp : Z;
  js_frame_id : string;
  js_name : list string;
  js_position : list Q;
  js_velocity : list Q;
  js_effort : list Q
}.

Definition fillJointState (angles : list Q) (joint_names : list string)
    (frame : string) (state : JointState) : JointState :=
  if negb (length angles =? length joint_names)%nat then state
  else
    {| js_seq := js_seq state;
       js_stamp := js_stamp state;
       js_frame_id := frame;
       js_name := joint_names;
       js_position := angles;
       js_velocity := js_velocity state;
       js_effort := js_effort state |}.

(** Of [arm_navigation_msgs::PositionConstraint], [OrientationConstraint]
    and [Constraints]: the members that [fillConstraint] reads or writes,
    and the frame of the orientation constraint, which it leaves alone. *)
Record PositionConstraint : Type := {
  pc_frame_id : string;
  pc_position : Point;
  pc_dimensions : list Q
}.

Record OrientationConstraint : Type := {
  oc_frame_id : string;
  oc_orientation : Quaternion;
  oc_roll_tolerance : Q;
  oc_pitch_tolerance : Q;
  oc_yaw_tolerance : Q
}.

Record Constraints : Type := {
  position_constraints : list PositionConstraint;
  orientation_constraints : list OrientationConstraint
}.

(** Elements that [resize] adds are value-initialised. *)
Definition new_PositionConstraint : PositionConstraint :=
  {| pc_frame_id := EmptyString;
     pc_position := {| x := 0; y := 0; z := 0 |};
     pc_dimensions := [] |}.

Definition new_OrientationConstraint : OrientationConstraint :=
  {| oc_frame_id := EmptyString;
     oc_orientation := {| qx := 0; qy := 0; qz := 0; qw := 0 |};
     oc_roll_tolerance := 0;
     oc_pitch_tolerance := 0;
     oc_yaw_tolerance := 0 |}.

Section Goal.

(** [leatherman::rpyToQuatMsg(r, p, y, q)] *)
Variable rpyToQuatMsg : Q → Q → Q → Quaternion.

Definition fillConstraint (pose : list Q) (frame : string) (goals : Constraints)
  : result Constraints :=
  if (length pose <? 6)%nat then Ok goals
  else
    let pcs := vresize 1 new_PositionConstraint (position_constraints goals) in
    let ocs :=
      vresize 1 new_OrientationConstraint (orientation_constraints goals) in
    pc <- at_ pcs 0 ;;
    oc <- at_ ocs 0 ;;
    p0 <- at_ pose 0 ;;
    p1 <- at_ pose 1 ;;
    p2 <- at_ pose 2 ;;
    p3 <- at_ pose 3 ;;
    p4 <- at_ pose 4 ;;
    p5 <- at_ pose 5 ;;
    let pc' :=
      {| pc_frame_id := frame;
         pc_position := {| x := p0; y := p1; z := p2 |};
         pc_dimensions := vresize 3 (1 # 100) (pc_dimensions pc) |} in
    let oc' :=
      {| oc_frame_id := oc_frame_id oc;
         oc_orientation := rpyToQuatMsg p3 p4 p5;
         oc_roll_tolerance := 5 # 100;
         oc_pitch_tolerance := 5 # 100;
         oc_yaw_tolerance := 5 # 100 |} in
    Ok {| position_constraints := <[0%nat := pc']> pcs;
          orientation_constraints := <[0%nat := oc']> ocs |}.

End Goal.

(** *** Parts of [main] *)

(** A [std::stringstream] being read: what is left, and its state bits. *)
Record sstream : Type := { ss_rest : list ascii; eofbit : bool; failbit : bool }.

Definition good (ss : sstream) : bool := negb (eofbit ss) && negb (failbit ss).

(** [stream >> jname] with [jname] empty before: white space is skipped and
    the next word read; reaching the end sets [eofbit], reading nothing
    sets [failbit]. *)
Definition extract (ss : sstream) : sstream * string :=
  if negb (good ss)
  then ({| ss_rest := ss_rest ss; eofbit := eofbit ss; failbit := true |},
        EmptyString)
  else
    match skip_ws (ss_rest ss) with
    | [] => ({| ss_rest := []; eofbit := true; failbit := true |}, EmptyString)
    | s =>
        let '(t, r) := take_token s in
        ({| ss_rest := r;
            eofbit := match r with [] => true | _ => false end;
            failbit := false |},
         string_of_list_ascii t)
    end.

(** The loop that fills [planning_joints]; [fuel] bounds its iterations. *)
Fixpoint planning_joints_loop (fuel : nat) (ss : sstream)
    (planning_joints : list string) : option (list string) :=
  match fuel with
  | O => None
  | S k =>
      if good ss && negb (eofbit ss) then
        let '(ss', jname) := extract ss in
        if (String.length jname =? 0)%nat
        then planning_joints_loop k ss' planning_joints
        else planning_joints_loop k ss' (planning_joints ++ [jname])
      else Some planning_joints
  end.

Definition planning_joints_of (joint_list : string) : option (list string) :=
  planning_joints_loop (S (S (String.length joint_list)))
    {| ss_rest := list_ascii_of_string joint_list;
       eofbit := false; failbit := false |} [].

(** The start state of the request: [start_angles] is made of as many zeros
    as there are planning joints, four of them are then set, and the joint
    state is filled. *)
Definition main_start_state (planning_joints : list string)
    (planning_frame : string) (state : JointState) : result JointState :=
  let start_angles := replicate (length planning_joints) 0%Q in
  a1 <- store_at start_angles 1 (2 # 100)%Q ;;
  a2 <- store_at a1 2 (- (3 # 1000))%Q ;;
  a3 <- store_at a2 3 (- (42 # 100))%Q ;;
  a5 <- store_at a3 5 (- (73 # 100))%Q ;;
  let st := fillJointState a5 planning_joints planning_frame state in
  Ok {| js_seq := js_seq st;
        js_stamp := js_stamp st;
        js_frame_id := planning_frame;
        js_name := js_name st;
        js_position := js_position st;
        js_velocity := js_velocity st;
        js_effort := js_effort st |}.

(** [scene->collision_objects]: empty unless an object file is named. *)
Definition main_collision_objects (atoi : string → Z) (atof : string → Q)
    (now : nat → Z) (fs : gmap string string)
    (object_filename planning_frame : string)
  : result (list CollisionObject) :=
  match object_filename with
  | EmptyString => Ok []
  | _ => getCollisionObjects atoi atof now fs object_filename planning_frame
  end.

(** *** The loader in terms of the words of the file *)

(** The text ends in white space. *)
Definition ends_in_space (s : list ascii) : bool :=
  match last s with
  | Some c => isspace c
  | None => false
  end.

(** The value of a field after the scan that looks for the [p]-th word of
    the file, from its value [old] before: the word is stored unless it is
    missing, or the input ends right behind it. [sp] tells whether the file
    ends in white space. *)
Definition stored_after (atof : string → Q) (W : list (list ascii))
    (sp : bool) (p : nat) (old : Q) : Q :=
  match W !! p with
  | Some t =>
      if (S p =? length W)%nat && negb sp then old
      else field_after atof (Some t) old
  | None => old
  end.

(** What [sTemp] holds after the scan that looks for the [p]-th word: that
    word, or the last word of the file when there are not that many. *)
Definition buffer_after (W : list (list ascii)) (p : nat) : string :=
  c_str (nth (Nat.min p (length W - 1)) W []).

(** The [i]-th box, from the words [W] of the file (the count comes first). *)
Definition box_of_words (atof : string → Q) (now : nat → Z) (frame : string)
    (W : list (list ascii)) (sp : bool) (i : nat) : CollisionObject :=
  cube_of (now i) frame (buffer_after W (7 * i + 1))
    (stored_after atof W sp (7 * i + 2) 0)
    (stored_after atof W sp (7 * i + 3) 0)
    (stored_after atof W sp (7 * i + 4) 0)
    (stored_after atof W sp (7 * i + 5) 0)
    (stored_after atof W sp (7 * i + 6) 0)
    (stored_after atof W sp (7 * i + 7) 0).

Definition boxes_of_words (atoi : string → Z) (atof : string → Q)
    (now : nat → Z) (frame : string) (W : list (list ascii)) (sp : bool)
  : list CollisionObject :=
  map (box_of_words atof now frame W sp)
      (seq 0 (Z.to_nat (atoi (buffer_after W 0)))).

(** The three coordinates and the three sizes of a box. *)
Definition numbers_of (o : CollisionObject) : list Q :=
  match poses o, shapes o with
  | p :: _, s :: _ =>
      [x (position p); y (position p); z (position p)] ++ dimensions s
  | _, _ => []
  end.

(** The state of the loader after [k] scans of a file with the words [W]. *)
Definition loader_state (W : list (list ascii)) (sp : bool) (k : nat)
    (st : locals) : Prop :=
  (1 ≤ k)%nat ∧
  loader_inv (drop k W) st ∧
  sTemp st = Some (buffer_after W (k - 1)) ∧
  (rest (fCfg st) ≠ [] → ends_in_space (rest (fCfg st)) = sp) ∧
  (eof (fCfg st) = true ↔
   (length W < k)%nat ∨ (length W = k ∧ sp = false)).

(** *** Obstacle files written record by record *)





End call_planner.

(** * Concrete grids *)

Module Examples.

Import distance_field sbpl_arm_planner.

(** A field as its constructor and [reset()] leave it: [n] cells on every
    axis, nothing occupied, every distance at the propagation radius. *)
Definition fresh_field (size res : Q) (origin : Q * Q * Q) (max_distance : Q)
    (n : Z) : PropagationDistanceField :=
  {| size_ := (size, size, size); resolution_ := res; origin_ := origin;
     max_distance_ := max_distance; num_cells_ := (n, n, n);
     cell_ref_ := 0;
     occupied_ := ∅;
     distance_ := λ _, max_distance |}.

(** The field of [main]:
    [PropagationDistanceField(3.0, 3.0, 3.0, 0.02, -0.75, -1.25, -1.0, 0.2)]
    followed by [df->reset()]. *)
Definition demo_field : PropagationDistanceField :=
  fresh_field 3 (2 # 100) (- (75 # 100), - (125 # 100), - 1)%Q (2 # 10) 150.

Definition df : ptr := 1%positive.

Definition demo_heap : Heap := {[ df := demo_field ]}.

(** The grid of [main], before and after
    [grid->setReferenceFrame(planning_frame)]. *)
Definition demo_grid0 : OccupancyGrid :=
  {| grid_resolution_ := 2 # 100; prop_distance_ := 2 # 10;
     reference_frame_ := EmptyString; grid_ := df |}.

Definition demo_grid : OccupancyGrid := setReferenceFrame demo_grid0 "map".

(** A field of 2 x 2 x 2 cells of half a meter that tracks distances up to
    150 meters, and a grid over it. *)
Definition far_field : PropagationDistanceField :=
  fresh_field 1 (1 # 2) (0, 0, 0)%Q 150 2.

Definition far_heap : Heap := {[ df := far_field ]}.

Definition far_grid : OccupancyGrid :=
  {| grid_resolution_ := 1 # 2; prop_distance_ := 150;
     reference_frame_ := "map"; grid_ := df |}.

(** A field of 2 x 2 x 2 cells of one meter that tracks distances up to
    3000000001 meters, and a grid over it. *)
Definition vast_field : PropagationDistanceField :=
  fresh_field 2 1 (0, 0, 0)%Q 3000000001 2.

Definition vast_heap : Heap := {[ df := vast_field ]}.

Definition vast_grid : OccupancyGrid :=
  {| grid_resolution_ := 1; prop_distance_ := 3000000001;
     reference_frame_ := "map"; grid_ := df |}.

(** Scenario A of the spec: 1 m x 1 m x 1 m at 0.1 m, origin (0,0,0), with the
    cell of the point (0.5, 0.5, 0.5) occupied. *)
Definition scenario_field : PropagationDistanceField :=
  distance_field.addPointsToField
    (fresh_field 1 (1 # 10) (0, 0, 0)%Q (5 # 10) 10)
    [(5 # 10, 5 # 10, 5 # 10)%Q].

Definition scenario_grid : OccupancyGrid :=
  {| grid_resolution_ := 1 # 10; prop_distance_ := 5 # 10;
     reference_frame_ := "map"; grid_ := df |}.

Definition scenario_heap : Heap :=
  {[ df := propagate chessboard scenario_field ]}.

End Examples.

(** * Concrete obstacle files *)

Module LoaderExamples.

Import call_planner.

(** Decimal conversions in the manner of the C library, for the examples:
    an optional sign, digits, and for [atof] an optional fraction; what
    follows the number is ignored, and with no digits the value is 0. *)
Definition digit (c : ascii) : option Z :=
  let n := nat_of_ascii c in
  if (48 <=? n)%nat && (n <=? 57)%nat then Some (Z.of_nat (n - 48)) else None.

Fixpoint leading_digits (s : string) : list Z * string :=
  match s with
  | String c s' =>
      match digit c with
      | Some d => let '(ds, r) := leading_digits s' in (d :: ds, r)
      | None => ([], s)
      end
  | EmptyString => ([], EmptyString)
  end.

Definition decimal (ds : list Z) : Z := fold_left (λ acc d, 10 * acc + d) ds 0.

Definition signed (s : string) : bool * string :=
  match s with
  | String "-" s' => (true, s')
  | String "+" s' => (false, s')
  | _ => (false, s)
  end.

Definition atoi (s : string) : Z :=
  let '(neg, s1) := signed s in
  let '(ds, _) := leading_digits s1 in
  if neg then - decimal ds else decimal ds.

Definition atof (s : string) : Q :=
  let '(neg, s1) := signed s in
  let '(ip, s2) := leading_digits s1 in
  let fp := match s2 with
            | String "." s3 => fst (leading_digits s3)
            | _ => []
            end in
  let v := (inject_Z (decimal ip)
            + inject_Z (decimal fp) / inject_Z (10 ^ Z.of_nat (length fp)))%Q in
  Qred (if neg then - v else v).

Definition now (i : nat) : Z := 0.

(** Three records are declared; the first has an unreadable size, the
    second ends after its second number, the third is missing. *)
Definition truncated_file : string :=
  "3 box1 0.5 0.25 1 0.1 abc 0.1 box2 1.5 2".

Definition disk : gmap string string := {[ "objects.txt" := truncated_file ]}.

End LoaderExamples.

(** * More concrete inputs *)

Module MoreExamples.

Import call_planner.

(** Obstacle files: one box written with and without a final blank, the
    same box spread over more white space, a file of blanks, and a file
    with a negative count. *)
Definition disk : gmap string string :=
  {[ "box.txt" := "1 box 1 2 3 0.5 0.25 0.125 ";
     "box_no_blank.txt" := "1 box 1 2 3 0.5 0.25 0.125";
     "box_spread.txt" := "  1   box 1 2  3 0.5   0.25 0.125   ";
     "blank.txt" := "   ";
     "negative.txt" := "-2 box 1 2 3 4 5 6 " ]}.

(** A joint state as [main] finds it in a fresh request. *)
Definition fresh_JointState : JointState :=
  {| js_seq := 0; js_stamp := 0; js_frame_id := EmptyString;
     js_name := []; js_position := []; js_velocity := []; js_effort := [] |}.

(** Constraints without entries, as in a fresh request, and constraints
    that already hold a region of four sizes. *)
Definition fresh_Constraints : Constraints :=
  {| position_constraints := []; orientation_constraints := [] |}.

Definition used_Constraints : Constraints :=
  {| position_constraints :=
       [ {| pc_frame_id := "odom";
            pc_position := {| x := 9; y := 9; z := 9 |};
            pc_dimensions := [1; 2; 3; 4]%Q |};
         new_PositionConstraint ];
     orientation_constraints := [] |}.

(** A stand-in for [leatherman::rpyToQuatMsg]: the three angles are kept
    as they are. *)
Definition rpy (r p y : Q) : Quaternion :=
  {| qx := r; qy := p; qz := y; qw := 1 |}.

(** The seven joints of a right arm, as one string. *)
Definition arm_joints : string :=
  "r_shoulder_pan_joint r_shoulder_lift_joint r_upper_arm_roll_joint r_elbow_flex_joint r_forearm_roll_joint r_wrist_flex_joint r_wrist_roll_joint".

End MoreExamples.

(** * An obstacle file with a short record *)

Module RecordExamples.

Import call_planner.


Definition short_record_file : string := "2 a 1 2 3 4 5 b 1 2 3 4 5 6 ".

Definition disk : gmap string string :=
  {[ "short_record.txt" := short_record_file ]}.

End RecordExamples.

(** * Properties of the occupancy grid *)

Import distance_field sbpl_arm_planner.

(** ** Rational arithmetic *)

Lemma Qfloor_inject_add (i : Z) (r : Q) :
  (0 <= r)%Q → (r < 1)%Q → Qfloor (inject_Z i + r) = i.
Proof.
  intros Hr0 Hr1.
  pose proof (Qfloor_le (inject_Z i + r)) as Hlo.
  pose proof (Qlt_floor (inject_Z i + r)) as Hhi.
  assert (H1 : (inject_Z (Qfloor (inject_Z i + r)) < inject_Z (i + 1))%Q).
  { eapply Qle_lt_trans; [exact Hlo|].
    rewrite inject_Z_plus. apply Qplus_lt_r. exact Hr1. }
  assert (H2 : (inject_Z i < inject_Z (Qfloor (inject_Z i + r) + 1))%Q).
  { eapply Qle_lt_trans; [|exact Hhi].
    rewrite <- (Qplus_0_r (inject_Z i)) at 1. apply Qplus_le_r. exact Hr0. }
  rewrite <- Zlt_Qlt in H1, H2. lia.
Qed.

Lemma Qtruncate_nonneg (q : Q) : 0 ≤ Qfloor q → Qtruncate q = Qfloor q.
Proof.
  destruct q as [n d]. unfold Qtruncate, Qfloor. simpl. intros H.
  apply Z.quot_div_nonneg; [|lia].
  destruct (Z.neg_nonneg_cases n) as [Hn|Hn]; [|exact Hn].
  pose proof (Z.div_lt_upper_bound n (Z.pos d) 0 ltac:(lia) ltac:(lia)). lia.
Qed.

Lemma Qfloor_nonneg (q : Q) : (0 <= q)%Q → 0 ≤ Qfloor q.
Proof.
  intros H. change 0 with (Qfloor (inject_Z 0)) at 1.
  rewrite Qfloor_Z. apply (Qfloor_resp_le 0 q) in H. exact H.
Qed.

Example to_unsigned_char_examples :
  to_unsigned_char (27 # 10) = Ok 2 ∧ to_unsigned_char 255 = Ok 255 ∧
  to_unsigned_char (- (1 # 2)) = Ok 0 ∧
  to_unsigned_char 256 = Err UndefinedConversion ∧
  to_unsigned_char (- 1) = Err UndefinedConversion.
Proof. by vm_compute. Qed.

(** Whatever value the division yields, a value in [[0, 256)] is converted
    to its floor. *)
Lemma to_unsigned_char_fits (q : Q) :
  (0 <= q)%Q → (q < 256)%Q → to_unsigned_char q = Ok (Qfloor q).
Proof.
  intros Hlo Hhi. unfold to_unsigned_char.
  pose proof (Qfloor_nonneg _ Hlo) as Hf0.
  rewrite (Qtruncate_nonneg _ Hf0).
  assert (Hf1 : Qfloor q < 256).
  { rewrite Zlt_Qlt. eapply Qle_lt_trans; [apply Qfloor_le|exact Hhi]. }
  destruct (Z.leb_spec 0 (Qfloor q)); [|lia].
  destruct (Z.leb_spec (Qfloor q) 255); [reflexivity|lia].
Qed.

(** A value of 256 or more has no conversion. *)
Lemma to_unsigned_char_too_large (q : Q) :
  (256 <= q)%Q → to_unsigned_char q = Err UndefinedConversion.
Proof.
  intros Hbig. unfold to_unsigned_char.
  assert (Hf : 256 ≤ Qfloor q).
  { change 256 with (Qfloor (inject_Z 256)) at 1.
    rewrite Qfloor_Z. apply (Qfloor_resp_le 256 q) in Hbig. exact Hbig. }
  rewrite Qtruncate_nonneg by lia.
  destruct (Z.leb_spec (Qfloor q) 255); [lia|].
  by rewrite andb_false_r.
Qed.

(** ** Reading through the facade *)

Lemma deref_Some (h : Heap) (p : ptr) (f : PropagationDistanceField) :
  h !! p = Some f → deref h p = Ok f.
Proof. intros H. unfold deref. by rewrite H. Qed.

Lemma isCellValid_spec (f : PropagationDistanceField) (x y z : Z) :
  isCellValid f x y z = true ↔
  0 ≤ x < getNumCells f DIM_X ∧ 0 ≤ y < getNumCells f DIM_Y ∧
  0 ≤ z < getNumCells f DIM_Z.
Proof.
  unfold isCellValid.
  rewrite !andb_true_iff, !Z.leb_le, !Z.ltb_lt. lia.
Qed.

Lemma isInBounds_isCellValid (h : Heap) (g : OccupancyGrid)
    (f : PropagationDistanceField) (x y z : Z) :
  h !! grid_ g = Some f → isInBounds h g x y z = Ok (isCellValid f x y z).
Proof.
  intros H. unfold isInBounds. by rewrite (deref_Some _ _ _ H).
Qed.

Lemma getDistance_in_bounds (h : Heap) (g : OccupancyGrid)
    (f : PropagationDistanceField) (x y z : Z) :
  h !! grid_ g = Some f → isCellValid f x y z = true →
  getDistance h g x y z = Ok (distance_ f (x, y, z)).
Proof.
  intros H Hv. unfold getDistance, getDistanceFromCell.
  rewrite (deref_Some _ _ _ H). simpl. by rewrite Hv.
Qed.

(** C5. [isInBounds] answers true exactly for the triples with every
    coordinate in [[0, dimension_axis)]. Axis by axis: from an in-bounds
    triple, replacing one coordinate by [dimension_axis - 1] stays in bounds;
    replacing a coordinate by [dimension_axis] is out of bounds, whatever the
    two others are. *)
Theorem isInBounds_spec (h : Heap) (g : OccupancyGrid)
    (f : PropagationDistanceField) (x y z : Z) :
  h !! grid_ g = Some f →
  let nx := getNumCells f DIM_X in
  let ny := getNumCells f DIM_Y in
  let nz := getNumCells f DIM_Z in
  (∃ b, isInBounds h g x y z = Ok b ∧
        (b = true ↔ 0 ≤ x < nx ∧ 0 ≤ y < ny ∧ 0 ≤ z < nz)) ∧
  (isInBounds h g x y z = Ok true →
     isInBounds h g (nx - 1) y z = Ok true ∧
     isInBounds h g x (ny - 1) z = Ok true ∧
     isInBounds h g x y (nz - 1) = Ok true) ∧
  isInBounds h g nx y z = Ok false ∧
  isInBounds h g x ny z = Ok false ∧
  isInBounds h g x y nz = Ok false.
Proof.
  intros H nx ny nz. rewrite !(isInBounds_isCellValid _ _ _ _ _ _ H).
  split; [|split; [|split; [|split]]].
  - eexists. split; [reflexivity|]. apply isCellValid_spec.
  - intros [= Hv]. apply isCellValid_spec in Hv.
    repeat split; f_equal; apply isCellValid_spec; subst nx ny nz; lia.
  - f_equal. apply not_true_is_false. rewrite isCellValid_spec. subst nx. lia.
  - f_equal. apply not_true_is_false. rewrite isCellValid_spec. subst ny. lia.
  - f_equal. apply not_true_is_false. rewrite isCellValid_spec. subst nz. lia.
Qed.

Lemma isInBounds_spec_witness :
  Examples.demo_heap !! grid_ Examples.demo_grid = Some Examples.demo_field ∧
  isInBounds Examples.demo_heap Examples.demo_grid 149 0 149 = Ok true ∧
  isInBounds Examples.demo_heap Examples.demo_grid 150 0 149 = Ok false.
Proof.
  split; [reflexivity|].
  pose proof (isInBounds_spec Examples.demo_heap Examples.demo_grid
                Examples.demo_field 7 0 149 eq_refl) as H.
  cbv zeta in H. destruct H as (_ & Hmax & Hx & _).
  split; [apply Hmax; reflexivity | exact Hx].
Defined.

(** ** Coordinate transform *)

Lemma getCellFromLocation_getLocationFromCell
    (f : PropagationDistanceField) (o : Q) (i : Z) :
  (0 < resolution_ f)%Q → reference_in_cell f →
  getCellFromLocation f o (getLocationFromCell f o i) = i.
Proof.
  intros Hres [Hr0 Hr1].
  unfold getCellFromLocation, getLocationFromCell.
  etrans; [|exact (Qfloor_inject_add i (cell_ref_ f) Hr0 Hr1)].
  apply Qfloor_comp. field.
  intros Hz. rewrite Hz in Hres. by apply Qlt_irrefl in Hres.
Qed.

(** C2. For every valid cell index of a grid with a positive resolution,
    whose cells have their reference point at the corner, at the center or
    anywhere else inside the cell, [gridToWorld] followed by [worldToGrid]
    gives the index back. *)
Theorem worldToGrid_gridToWorld (h : Heap) (g : OccupancyGrid)
    (f : PropagationDistanceField) (x y z : Z) :
  h !! grid_ g = Some f →
  (0 < resolution_ f)%Q → reference_in_cell f →
  isInBounds h g x y z = Ok true →
  ∃ wx wy wz,
    gridToWorld h g x y z = Ok (wx, wy, wz) ∧
    worldToGrid h g wx wy wz = Ok (x, y, z).
Proof.
  intros H Hwf Hrf _.
  unfold gridToWorld, worldToGrid. rewrite (deref_Some _ _ _ H). simpl.
  unfold distance_field.gridToWorld, distance_field.worldToGrid.
  destruct (origin_ f) as [[ox oy] oz].
  do 3 eexists. split; [reflexivity|].
  by rewrite !getCellFromLocation_getLocationFromCell.
Qed.

Lemma worldToGrid_gridToWorld_witness :
  ∃ wx wy wz,
    gridToWorld Examples.demo_heap Examples.demo_grid 149 0 75
      = Ok (wx, wy, wz) ∧
    worldToGrid Examples.demo_heap Examples.demo_grid wx wy wz
      = Ok (149, 0, 75).
Proof.
  apply (worldToGrid_gridToWorld Examples.demo_heap Examples.demo_grid
           Examples.demo_field 149 0 75).
  - reflexivity.
  - reflexivity.
  - split; vm_compute; congruence.
  - reflexivity.
Defined.

(** ** Distance queries *)

(** C3. With some coordinate outside [[0, dimension_axis)], [getDistance]
    returns no distance: the call ends in the OutOfBounds error. *)
Theorem getDistance_out_of_bounds (h : Heap) (g : OccupancyGrid)
    (f : PropagationDistanceField) (x y z : Z) :
  h !! grid_ g = Some f →
  ¬ (0 ≤ x < getNumCells f DIM_X ∧ 0 ≤ y < getNumCells f DIM_Y ∧
     0 ≤ z < getNumCells f DIM_Z) →
  isInBounds h g x y z = Ok false ∧
  getDistance h g x y z = Err OutOfBounds.
Proof.
  intros H Hout. rewrite <- isCellValid_spec in Hout.
  apply not_true_is_false in Hout.
  rewrite (isInBounds_isCellValid _ _ _ _ _ _ H), Hout. split; [done|].
  unfold getDistance, getDistanceFromCell.
  rewrite (deref_Some _ _ _ H). simpl. by rewrite Hout.
Qed.

Lemma getDistance_out_of_bounds_witness :
  isInBounds Examples.demo_heap Examples.demo_grid 0 (-1) 0 = Ok false ∧
  getDistance Examples.demo_heap Examples.demo_grid 0 (-1) 0 = Err OutOfBounds.
Proof.
  apply (getDistance_out_of_bounds Examples.demo_heap Examples.demo_grid
           Examples.demo_field 0 (-1) 0).
  - reflexivity.
  - vm_compute. intros (_ & [Hy _] & _). by apply Hy.
Defined.

Lemma getCell_in_bounds (h : Heap) (g : OccupancyGrid)
    (f : PropagationDistanceField) (x y z : Z) (d : Q) :
  h !! grid_ g = Some f → getDistance h g x y z = Ok d →
  getCell h g x y z = to_unsigned_char (d / grid_resolution_ g).
Proof.
  intros H. unfold getDistance, getCell. rewrite (deref_Some _ _ _ H). simpl.
  intros ->. reflexivity.
Qed.

(** C4, as stated: [getCell] is the floor of [getDistance / resolution] at
    every in-bounds cell. It fails on a fresh grid of half-meter cells that
    tracks distances up to 150 m: the quotient is 300, which no
    [unsigned char] holds. *)
Lemma getCell_floor_counterexample :
  ¬ (∀ (h : Heap) (g : OccupancyGrid) (x y z : Z) (d : Q),
       isInBounds h g x y z = Ok true →
       getDistance h g x y z = Ok d →
       getCell h g x y z = Ok (Qfloor (d / grid_resolution_ g))).
Proof.
  intros Hall.
  specialize (Hall Examples.far_heap Examples.far_grid 0 0 0 150%Q
                eq_refl eq_refl).
  vm_compute in Hall. discriminate Hall.
Qed.

(** C4, amended: at every in-bounds cell whose quotient
    [getDistance / resolution] lies in [[0, 256)], [getCell] is the floor of
    that quotient. *)
Theorem getCell_floor (h : Heap) (g : OccupancyGrid)
    (f : PropagationDistanceField) (x y z : Z) (d : Q) :
  h !! grid_ g = Some f →
  isInBounds h g x y z = Ok true →
  getDistance h g x y z = Ok d →
  (0 <= d / grid_resolution_ g)%Q → (d / grid_resolution_ g < 256)%Q →
  getCell h g x y z = Ok (Qfloor (d / grid_resolution_ g)).
Proof.
  intros H _ Hd Hlo Hhi.
  rewrite (getCell_in_bounds _ _ _ _ _ _ _ H Hd).
  by apply to_unsigned_char_fits.
Qed.

Lemma getCell_floor_witness :
  getCell Examples.demo_heap Examples.demo_grid 3 4 5 = Ok 10.
Proof.
  apply (getCell_floor Examples.demo_heap Examples.demo_grid
           Examples.demo_field 3 4 5 (2 # 10)%Q);
    vm_compute; congruence.
Defined.

(** C8, as stated: at every in-bounds cell whose quotient
    [distance / resolution] is 256 or more, [getCell] is that quotient
    reduced modulo 256. It fails on a fresh grid of one-meter cells that
    tracks distances up to 3000000001 m: the quotient is 3000000001, whose
    remainder modulo 256 is 1, and its conversion to [unsigned char] is
    undefined. *)
Lemma getCell_wraps_counterexample :
  ¬ (∀ (h : Heap) (g : OccupancyGrid) (x y z : Z) (d : Q),
       isInBounds h g x y z = Ok true →
       getDistance h g x y z = Ok d →
       (256 <= d / grid_resolution_ g)%Q →
       getCell h g x y z = Ok (Qfloor (d / grid_resolution_ g) mod 256)).
Proof.
  intros Hall.
  specialize (Hall Examples.vast_heap Examples.vast_grid 0 0 0 3000000001%Q
                eq_refl eq_refl).
  assert (Hbig : (256 <= 3000000001 / grid_resolution_ Examples.vast_grid)%Q)
    by (by vm_compute).
  specialize (Hall Hbig). vm_compute in Hall. discriminate Hall.
Qed.

(** C8, amended: at an in-bounds cell whose quotient
    [distance / resolution] is 256 or more, the quotient is outside the
    range of [unsigned char] and its conversion in [getCell] is undefined:
    [getCell] has no defined result there, neither the quotient clamped at a
    maximum bucket nor the quotient modulo 256. *)
Theorem getCell_out_of_range (h : Heap) (g : OccupancyGrid)
    (f : PropagationDistanceField) (x y z : Z) (d : Q) :
  h !! grid_ g = Some f →
  isInBounds h g x y z = Ok true →
  getDistance h g x y z = Ok d →
  (256 <= d / grid_resolution_ g)%Q →
  getCell h g x y z = Err UndefinedConversion.
Proof.
  intros H _ Hd Hbig.
  rewrite (getCell_in_bounds _ _ _ _ _ _ _ H Hd).
  by apply to_unsigned_char_too_large.
Qed.

Lemma getCell_out_of_range_witness :
  getCell Examples.far_heap Examples.far_grid 1 0 1 = Err UndefinedConversion
  ∧ Qfloor (150 / (1 # 2)) = 300.
Proof.
  split; [|reflexivity].
  apply (getCell_out_of_range Examples.far_heap Examples.far_grid
           Examples.far_field 1 0 1 150%Q);
    vm_compute; congruence.
Defined.

(** ** The reference frame *)

(** C9. After [setReferenceFrame(f)], [getReferenceFrame()] is [f]; the
    other members of the grid and the store behind it are as before, so
    every distance, occupancy, bounds, size, origin, resolution and
    coordinate query, and any other function of those members and of the
    store, answers as before. *)
Theorem setReferenceFrame_frame (g : OccupancyGrid) (frame : string) :
  let g' := setReferenceFrame g frame in
  getReferenceFrame g' = frame ∧
  getResolution g' = getResolution g ∧
  getDistanceFieldPtr g' = getDistanceFieldPtr g ∧
  prop_distance_ g' = prop_distance_ g ∧
  (∀ (h : Heap),
     getGridSize h g' = getGridSize h g ∧
     getWorldSize h g' = getWorldSize h g ∧
     getOrigin h g' = getOrigin h g ∧
     (∀ xyz, getCell_xyz h g' xyz = getCell_xyz h g xyz) ∧
     (∀ wx wy wz, worldToGrid h g' wx wy wz = worldToGrid h g wx wy wz) ∧
     (∀ x y z,
        getDistance h g' x y z = getDistance h g x y z ∧
        getOccupancy h g' x y z = getOccupancy h g x y z ∧
        getCell h g' x y z = getCell h g x y z ∧
        isInBounds h g' x y z = isInBounds h g x y z ∧
        gridToWorld h g' x y z = gridToWorld h g x y z)) ∧
  (∀ (A : Type) (query : Q → Q → ptr → A),
     query (grid_resolution_ g') (prop_distance_ g') (grid_ g')
     = query (grid_resolution_ g) (prop_distance_ g) (grid_ g)).
Proof.
  intros g'. subst g'.
  split; [reflexivity|]. do 3 (split; [reflexivity|]).
  split; [|reflexivity].
  intros h. do 3 (split; [reflexivity|]).
  split; [intros xyz; reflexivity|].
  split; [intros wx wy wz; reflexivity|].
  intros x y z. repeat split; reflexivity.
Qed.

(** ** Propagation *)

Lemma Qmin_zero_iff (a b : Q) :
  (0 <= a)%Q → (0 <= b)%Q → (Qmin a b == 0 ↔ a == 0 ∨ b == 0)%Q.
Proof.
  intros Ha Hb.
  destruct (Q.min_spec_le a b) as [[Hab He]|[Hba He]]; rewrite He.
  - split; [by left|]. intros [H0|H0]; [exact H0|].
    apply Qle_antisym; [by rewrite <- H0|exact Ha].
  - split; [by right|]. intros [H0|H0]; [|exact H0].
    apply Qle_antisym; [by rewrite <- H0|exact Hb].
Qed.

Lemma Qmult_pos_zero_iff (r m : Q) :
  (0 < r)%Q → (r * m == 0 ↔ m == 0)%Q.
Proof.
  intros Hr. split.
  - intros H. apply Qmult_integral in H as [H|H]; [|exact H].
    rewrite H in Hr. by apply Qlt_irrefl in Hr.
  - intros ->. ring.
Qed.

Section NearestObstacle.

Variable metric : cell → cell → Q.
Hypothesis metric_ok : is_metric metric.
Variable f : PropagationDistanceField.
Hypothesis f_ok : well_formed f.

Lemma clamped_min_nonneg (c : cell) (l : list cell) :
  (0 <= clamped_min metric (resolution_ f) (max_distance_ f) c l)%Q.
Proof.
  destruct metric_ok as [Hpos _]. destruct f_ok as [Hres Hmax].
  induction l as [|o l IH]; simpl.
  - apply Qlt_le_weak. eapply Qlt_le_trans; [exact Hres|exact Hmax].
  - apply Q.min_glb; [|exact IH].
    apply Qmult_le_0_compat; [by apply Qlt_le_weak|apply Hpos].
Qed.

Lemma clamped_min_zero_iff (c : cell) (l : list cell) :
  (clamped_min metric (resolution_ f) (max_distance_ f) c l == 0)%Q ↔ c ∈ l.
Proof.
  destruct metric_ok as [Hpos Hzero]. destruct f_ok as [Hres Hmax].
  induction l as [|o l IH]; simpl.
  - split; [|by intros ?%elem_of_nil].
    intros H0. exfalso. apply (Qlt_irrefl 0).
    eapply Qlt_le_trans; [exact Hres|]. by rewrite <- H0.
  - rewrite Qmin_zero_iff.
    + rewrite (Qmult_pos_zero_iff _ _ Hres), Hzero, IH, elem_of_cons. tauto.
    + apply Qmult_le_0_compat; [by apply Qlt_le_weak|apply Hpos].
    + apply clamped_min_nonneg.
Qed.

Lemma nearest_zero_iff (c : cell) :
  (nearest metric f c == 0)%Q ↔ c ∈ occupied_ f.
Proof.
  unfold nearest. by rewrite clamped_min_zero_iff, elem_of_elements.
Qed.

End NearestObstacle.

(** C1. After a [propagate()] call on the field behind the grid, at every
    in-bounds cell the stored distance is zero if and only if the cell is
    occupied. *)
Theorem distance_zero_iff_occupied (metric : cell → cell → Q) (h : Heap)
    (g : OccupancyGrid) (f : PropagationDistanceField) (x y z : Z) :
  is_metric metric → well_formed f → h !! grid_ g = Some f →
  let h' : Heap := <[grid_ g := propagate metric f]> h in
  isInBounds h' g x y z = Ok true →
  ∃ d occ,
    getDistance h' g x y z = Ok d ∧
    getOccupancy h' g x y z = Ok occ ∧
    ((d == 0)%Q ↔ occ = true).
Proof.
  intros Hm Hwf _ h' Hin.
  assert (Hh' : h' !! grid_ g = Some (propagate metric f))
    by apply lookup_insert_eq.
  rewrite (isInBounds_isCellValid _ _ _ _ _ _ Hh') in Hin.
  injection Hin as Hin.
  exists (nearest metric f (x, y, z)), (bool_decide ((x, y, z) ∈ occupied_ f)).
  split; [|split].
  - by rewrite (getDistance_in_bounds _ _ _ _ _ _ Hh' Hin).
  - unfold getOccupancy, distance_field.getOccupancy.
    rewrite (deref_Some _ _ _ Hh'). simpl. by rewrite Hin.
  - rewrite (nearest_zero_iff metric Hm f Hwf), bool_decide_eq_true. tauto.
Qed.

Lemma chessboard_is_metric : is_metric chessboard.
Proof.
  split.
  - intros [[ax ay] az] [[bx by_] bz]. unfold chessboard.
    change 0%Q with (inject_Z 0). rewrite <- Zle_Qle. lia.
  - intros [[ax ay] az] [[bx by_] bz]. unfold chessboard.
    change 0%Q with (inject_Z 0). rewrite inject_Z_injective.
    split; [intros H; f_equal; [f_equal|]; lia | intros [= -> -> ->]; lia].
Qed.

Lemma distance_zero_iff_occupied_witness :
  let h' : Heap :=
    <[Examples.df := propagate chessboard Examples.scenario_field]>
      {[ Examples.df := Examples.scenario_field ]} in
  ∃ d occ,
    getDistance h' Examples.scenario_grid 5 5 5 = Ok d ∧
    getOccupancy h' Examples.scenario_grid 5 5 5 = Ok occ ∧
    ((d == 0)%Q ↔ occ = true).
Proof.
  apply (distance_zero_iff_occupied chessboard
           {[ Examples.df := Examples.scenario_field ]}
           Examples.scenario_grid Examples.scenario_field 5 5 5).
  - exact chessboard_is_metric.
  - split; vm_compute; congruence.
  - reflexivity.
  - reflexivity.
Defined.

(** Scenario A: the occupied cell is at distance 0, its neighbour along z at
    one resolution. *)
Example scenario_A :
  (∃ d, getDistance Examples.scenario_heap Examples.scenario_grid 5 5 5 = Ok d
        ∧ (d == 0)%Q) ∧
  (∃ d, getDistance Examples.scenario_heap Examples.scenario_grid 5 5 6 = Ok d
        ∧ (d == 1 # 10)%Q).
Proof.
  split; eexists; (split; [by vm_compute|reflexivity]).
Qed.

(** ** Ownership of the backing field *)

(** C7, as stated: no public operation hands out a reference to the backing
    field. [getDistanceFieldPtr] does: it returns the grid's own [grid_], and
    a component that resets the field through that pointer changes what the
    grid's [getDistance] answers (in Scenario A, from 0 to the propagation
    radius at the occupied cell). *)
Lemma no_reference_handed_out_counterexample :
  ¬ (∀ m : method, is_reference (hands_back m) = false) ∧
  (let p := getDistanceFieldPtr Examples.scenario_grid in
   ∃ h',
     client_reset Examples.scenario_heap p = Ok h' ∧
     getDistance Examples.scenario_heap Examples.scenario_grid 5 5 5
       = Ok (0 # 10)%Q ∧
     getDistance h' Examples.scenario_grid 5 5 5 = Ok (5 # 10)%Q).
Proof.
  split.
  - intros Hall. specialize (Hall m_getDistanceFieldPtr). discriminate Hall.
  - eexists. split; [reflexivity|]. split; by vm_compute.
Qed.

(** C7, amended: [getDistanceFieldPtr] is the one public operation that
    hands out a reference to the backing field, namely the grid's own
    pointer, so that what is stored through it is what the grid's queries
    read; every other public operation hands back values only. *)
Theorem only_getDistanceFieldPtr_hands_out_reference :
  (∀ m : method,
     is_reference (hands_back m) = true ↔ m = m_getDistanceFieldPtr) ∧
  (∀ g : OccupancyGrid, getDistanceFieldPtr g = grid_ g) ∧
  (∀ (h : Heap) (g : OccupancyGrid) (f' : PropagationDistanceField)
     (x y z : Z),
     let h' : Heap := <[getDistanceFieldPtr g := f']> h in
     getDistance h' g x y z = getDistanceFromCell f' x y z ∧
     isInBounds h' g x y z = Ok (isCellValid f' x y z)).
Proof.
  split; [|split].
  - intros m. split; [|by intros ->].
    destruct m; simpl; intros H; try discriminate H; reflexivity.
  - reflexivity.
  - intros h g f' x y z h'.
    assert (Hh' : h' !! grid_ g = Some f') by apply lookup_insert_eq.
    split; [|exact (isInBounds_isCellValid _ _ _ _ _ _ Hh')].
    unfold getDistance. by rewrite (deref_Some _ _ _ Hh').
Qed.

(** * Properties of the obstacle-file loader *)

Module LoaderSpec.

Import call_planner.

(** ** Words of the input *)

Lemma skip_ws_length (s : list ascii) : (length (skip_ws s) ≤ length s)%nat.
Proof.
  induction s as [|c s IH]; simpl; [lia|].
  destruct (isspace c); simpl; lia.
Qed.

Lemma skip_ws_head (s : list ascii) (c : ascii) (s' : list ascii) :
  skip_ws s = c :: s' → isspace c = false.
Proof.
  induction s as [|a s IH]; simpl; [discriminate|].
  destruct (isspace a) eqn:Ha; [exact IH|]. by intros [= <- _].
Qed.

Lemma skip_ws_idem (s : list ascii) : skip_ws (skip_ws s) = skip_ws s.
Proof.
  induction s as [|a s IH]; simpl; [reflexivity|].
  destruct (isspace a) eqn:Ha; [exact IH|]. simpl. by rewrite Ha.
Qed.

Lemma take_token_length (s t r : list ascii) :
  take_token s = (t, r) → length s = (length t + length r)%nat.
Proof.
  revert t r. induction s as [|c s IH]; simpl; intros t r.
  - by intros [= <- <-].
  - destruct (isspace c).
    + by intros [= <- <-].
    + destruct (take_token s) as [t' r'] eqn:E. intros [= <- <-].
      simpl. by rewrite (IH t' r' eq_refl).
Qed.

Lemma take_token_nonspace (c : ascii) (s t r : list ascii) :
  isspace c = false → take_token (c :: s) = (t, r) →
  (length r < length (c :: s))%nat.
Proof.
  intros Hc. simpl. rewrite Hc.
  destruct (take_token s) as [t' r'] eqn:E. intros [= <- <-].
  apply take_token_length in E. simpl. lia.
Qed.

Lemma tokens_fuel_enough (k k' : nat) (s : list ascii) :
  (length s ≤ k)%nat → (length s ≤ k')%nat →
  tokens_fuel k s = tokens_fuel k' s.
Proof.
  revert k' s. induction k as [|k IH]; intros k' s Hk Hk'.
  - destruct s; [|simpl in Hk; lia]. by destruct k'.
  - cbn [tokens_fuel]. destruct (skip_ws s) as [|c s1] eqn:Es.
    + destruct k'; cbn [tokens_fuel]; [reflexivity|]. by rewrite Es.
    + pose proof (skip_ws_length s) as Hlen. rewrite Es in Hlen.
      pose proof (skip_ws_head _ _ _ Es) as Hc.
      destruct (take_token (c :: s1)) as [t r] eqn:Et.
      pose proof (take_token_nonspace _ _ _ _ Hc Et) as Hr.
      destruct k' as [|k']; [simpl in Hlen; lia|].
      cbn [tokens_fuel]. rewrite Es, Et. f_equal. apply IH; lia.
Qed.

Lemma tokens_unfold (s : list ascii) :
  tokens s =
  match skip_ws s with
  | [] => []
  | s1 => let '(t, r) := take_token s1 in t :: tokens r
  end.
Proof.
  unfold tokens. destruct s as [|a s]; [reflexivity|].
  cbn [length tokens_fuel].
  destruct (skip_ws (a :: s)) as [|c s1] eqn:Es; [reflexivity|].
  pose proof (skip_ws_length (a :: s)) as Hlen. rewrite Es in Hlen.
  pose proof (skip_ws_head _ _ _ Es) as Hc.
  destruct (take_token (c :: s1)) as [t r] eqn:Et.
  pose proof (take_token_nonspace _ _ _ _ Hc Et) as Hr.
  f_equal. apply tokens_fuel_enough; simpl in *; lia.
Qed.

Lemma tokens_nil : tokens [] = [].
Proof. reflexivity. Qed.

(** ** One scan *)

Lemma fscanf_s_exhausted (fp : FILE) (buf : option string) :
  tokens (rest fp) = [] →
  fscanf_s fp buf = Ok (-1, {| rest := []; eof := true |}, buf).
Proof.
  rewrite tokens_unfold. unfold fscanf_s.
  destruct (skip_ws (rest fp)) as [|c s1]; [reflexivity|].
  by destruct (take_token (c :: s1)).
Qed.

Lemma fscanf_s_word (fp : FILE) (buf : option string) (t : list ascii)
    (ts : list (list ascii)) :
  tokens (rest fp) = t :: ts → fits t →
  ∃ r, fscanf_s fp buf
       = Ok (1,
             {| rest := r;
                eof := eof fp || match r with [] => true | _ => false end |},
             Some (c_str t))
       ∧ tokens r = ts.
Proof.
  rewrite tokens_unfold. unfold fscanf_s, fits.
  destruct (skip_ws (rest fp)) as [|c s1]; [discriminate|].
  destruct (take_token (c :: s1)) as [t' r] eqn:Et.
  intros [= -> Hts] Hfit. exists r.
  destruct (Nat.leb_spec sTemp_size (length t)) as [Hle|_]; [lia|].
  by split.
Qed.

Lemma scan_spec (ts : list (list ascii)) (st : locals) :
  loader_inv ts st →
  ∃ st', scan st = Ok st' ∧ loader_inv (tail ts) st' ∧
         object_ids st' = object_ids st ∧ objects st' = objects st ∧
         (ts = [] → feof (fCfg st') = true ∧ sTemp st' = sTemp st) ∧
         (∀ t ts', ts = t :: ts' →
            sTemp st' = Some (c_str t) ∧
            (ts' ≠ [] → feof (fCfg st') = false)).
Proof.
  intros (Hts & Hfit & Hbuf & Heof). unfold scan.
  destruct ts as [|t ts].
  - rewrite (fscanf_s_exhausted _ _ Hts). simpl. eexists.
    split; [reflexivity|]. by split_and!.
  - apply Forall_cons in Hfit as [Ht Hfit].
    destruct (fscanf_s_word _ (sTemp st) _ _ Hts Ht) as (r & -> & Hr).
    simpl. eexists. split; [reflexivity|].
    assert (Hopen : eof (fCfg st) = false).
    { destruct (eof (fCfg st)); [|done].
      rewrite (Heof eq_refl) in Hts. discriminate Hts. }
    split_and!; simpl; try done.
    + unfold loader_inv. split_and!; simpl; try done.
      destruct r; [done|]. by rewrite Hopen.
    + intros t' ts' [= -> ->]. split; [done|].
      intros Hne. rewrite Hopen. destruct r; [|done].
      by rewrite tokens_nil in Hr.
Qed.

(** ** The loops *)

Section Loops.

Local Open Scope nat_scope.

Variable atoi : string → Z.
Variable atof : string → Q.
Variable now : nat → Z.
Variable fs : gmap string string.

Lemma loader_inv_ext (ts : list (list ascii)) (st st' : locals) :
  fCfg st' = fCfg st → sTemp st' = sTemp st →
  loader_inv ts st → loader_inv ts st'.
Proof. unfold loader_inv. by intros -> ->. Qed.

Lemma at_Some {A : Type} (v : list A) (i : nat) (a : A) :
  v !! i = Some a → at_ v i = Ok a.
Proof. intros H. unfold at_. by rewrite H. Qed.

Lemma tail_drop {A : Type} (l : list A) (n : nat) :
  drop n (tail l) = drop (S n) l.
Proof. destruct l; simpl; [by rewrite drop_nil|done]. Qed.

Lemma read_fields_spec (i count : nat) :
  ∀ (j : nat) (ts : list (list ascii)) (st : locals) (row : list Q),
    loader_inv ts st → objects st !! i = Some row → j + count ≤ length row →
    ∃ st' row',
      read_fields atof count i j st = Ok st' ∧
      loader_inv (drop count ts) st' ∧
      object_ids st' = object_ids st ∧
      objects st' = <[i := row']> (objects st) ∧
      length row' = length row ∧
      (∀ m, m < j → row' !! m = row !! m) ∧
      (∀ m old, m < count → S m < length ts ∨ length ts ≤ m →
         row !! (j + m) = Some old →
         row' !! (j + m) = Some (field_after atof (ts !! m) old)).
Proof.
  induction count as [|k IH]; intros j ts st row Hinv Hrow Hlen.
  - exists st, row. simpl. rewrite (list_insert_id _ _ _ Hrow), drop_0.
    split_and!; try done. intros m old Hm. lia.
  - cbn [read_fields].
    destruct (scan_spec ts st Hinv)
      as (st1 & -> & Hinv1 & Hids1 & Hobjs1 & Hend & Hword).
    cbn [bind].
    assert (Hstep : ∃ st2 row2,
      (if feof (fCfg st1) then Ok st1
       else s <- read_buf (sTemp st1) ;;
            if strlen s =? 0 then Ok st1
            else objs <- assign (objects st1) i j (atof s) ;;
                 Ok {| fCfg := fCfg st1; sTemp := sTemp st1;
                       object_ids := object_ids st1; objects := objs |})
      = Ok st2 ∧
      loader_inv (tail ts) st2 ∧ object_ids st2 = object_ids st ∧
      objects st2 = <[i := row2]> (objects st) ∧ length row2 = length row ∧
      (∀ m, m ≠ j → row2 !! m = row !! m) ∧
      (∀ old, 1 < length ts ∨ length ts ≤ 0 → row !! j = Some old →
         row2 !! j = Some (field_after atof (ts !! 0) old))).
    { destruct (feof (fCfg st1)) eqn:Hf.
      { exists st1, row. split_and!; try done.
        { by rewrite (list_insert_id _ _ _ Hrow). }
        intros old Hts Hold. destruct ts as [|t ts']; [done|].
        destruct (Hword t ts' eq_refl) as [_ Hopen].
        assert (Hne : ts' ≠ []) by (destruct ts'; [simpl in Hts; lia|done]).
        specialize (Hopen Hne). congruence. }
      assert (Hts : ∃ t ts', ts = t :: ts').
      { destruct ts as [|t ts']; [|by eauto].
        destruct (Hend eq_refl) as [Hf' _]. congruence. }
      destruct Hts as (t & ts' & ->).
      destruct (Hword t ts' eq_refl) as [Hs _].
      assert (Hrb : read_buf (sTemp st1) = Ok (c_str t)) by (by rewrite Hs).
      rewrite Hrb. cbn [bind].
      destruct (strlen (c_str t) =? 0) eqn:Hz.
      { exists st1, row. split_and!; try done.
        { by rewrite (list_insert_id _ _ _ Hrow). }
        intros old _ Hold. simpl. by rewrite Hz. }
      unfold assign. rewrite Hobjs1, (at_Some _ _ _ Hrow). cbn [bind].
      destruct (lookup_lt_is_Some_2 row j ltac:(lia)) as [v Hv].
      rewrite (at_Some _ _ _ Hv). cbn [bind].
      eexists _, (<[j := atof (c_str t)]> row). split; [reflexivity|].
      split_and!.
      - by apply (loader_inv_ext _ st1).
      - exact Hids1.
      - reflexivity.
      - by rewrite length_insert.
      - intros m Hm. by apply list_lookup_insert_ne.
      - intros old _ _. simpl. rewrite Hz.
        apply list_lookup_insert_eq. by eapply lookup_lt_Some. }
    destruct Hstep
      as (st2 & row2 & -> & Hinv2 & Hids2 & Hobjs2 & Hlen2 & Hother & Hj).
    cbn [bind].
    assert (Hrow2 : objects st2 !! i = Some row2).
    { rewrite Hobjs2. apply list_lookup_insert_eq. by eapply lookup_lt_Some. }
    destruct (IH (S j) (tail ts) st2 row2 Hinv2 Hrow2 ltac:(lia))
      as (st' & row' & -> & Hinv' & Hids' & Hobjs' & Hlen' & Hbefore & Hfields).
    exists st', row'. split; [reflexivity|].
    rewrite tail_drop in Hinv'.
    split_and!; try done; try congruence.
    + by rewrite Hobjs', Hobjs2, list_insert_insert_eq.
    + intros m Hm. rewrite Hbefore by lia. apply Hother. lia.
    + intros [|m] old Hm Hts Hold.
      * rewrite Nat.add_0_r in *. rewrite Hbefore by lia. by apply Hj.
      * rewrite Nat.add_succ_r in *.
        rewrite <- (lookup_tail ts m). apply (Hfields m old); [lia| |].
        -- destruct ts; simpl in *; lia.
        -- rewrite Hother by lia. exact Hold.
Qed.

Lemma length_resize (n : nat) (v : list Q) : length (resize n v) = n.
Proof. unfold resize. rewrite length_app, length_take, length_replicate. lia. Qed.

Lemma read_record_spec (i : nat) (ts : list (list ascii)) (st : locals)
    (row : list Q) :
  loader_inv ts st → objects st !! i = Some row →
  ∃ st' id row',
    read_record atof i st = Ok st' ∧
    loader_inv (drop 7 ts) st' ∧
    object_ids st' = object_ids st ++ [id] ∧
    objects st' = <[i := row']> (objects st) ∧
    length row' = 6 ∧
    (∀ t, ts !! 0 = Some t → id = c_str t) ∧
    (∀ m old, m < 6 → S (S m) < length ts ∨ length ts ≤ S m →
       resize 6 row !! m = Some old →
       row' !! m = Some (field_after atof (ts !! S m) old)).
Proof.
  intros Hinv Hrow. unfold read_record.
  destruct (scan_spec ts st Hinv)
    as (st1 & -> & Hinv1 & Hids1 & Hobjs1 & Hend & Hword).
  cbn [bind].
  pose proof Hinv1 as (_ & _ & [id Hid] & _).
  assert (Hrb : read_buf (sTemp st1) = Ok id) by (by rewrite Hid).
  assert (Hat : at_ (objects st1) i = Ok row)
    by (rewrite Hobjs1; by apply at_Some).
  rewrite Hrb, Hat. cbn [bind].
  set (st2 := {| fCfg := fCfg st1; sTemp := sTemp st1;
                 object_ids := object_ids st1 ++ [id];
                 objects := <[i := resize 6 row]> (objects st1) |}).
  assert (Hinv2 : loader_inv (tail ts) st2) by by apply (loader_inv_ext _ st1).
  assert (Hrow2 : objects st2 !! i = Some (resize 6 row)).
  { apply list_lookup_insert_eq. rewrite Hobjs1. by eapply lookup_lt_Some. }
  destruct (read_fields_spec i 6 0 (tail ts) st2 _ Hinv2 Hrow2
              ltac:(rewrite length_resize; lia))
    as (st' & row' & -> & Hinv' & Hids' & Hobjs' & Hlen' & _ & Hfields).
  exists st', id, row'. split; [reflexivity|].
  rewrite tail_drop in Hinv'. rewrite length_resize in Hlen'.
  split_and!; try done.
  - by rewrite Hids', <- Hids1.
  - rewrite Hobjs'. subst st2. simpl. rewrite Hobjs1.
    apply list_insert_insert_eq.
  - intros t Ht. destruct ts as [|t' ts']; [done|]. injection Ht as ->.
    destruct (Hword t ts' eq_refl) as [Hs _]. congruence.
  - intros m old Hm Hts Hold. rewrite <- (lookup_tail ts m).
    apply (Hfields m old); [lia| |exact Hold].
    destruct ts; simpl in *; lia.
Qed.

Lemma read_records_spec (count : nat) :
  ∀ (i : nat) (ts : list (list ascii)) (st : locals),
    loader_inv ts st → i + count ≤ length (objects st) →
    ∃ st' ids,
      read_records atof count i st = Ok st' ∧
      object_ids st' = object_ids st ++ ids ∧
      length ids = count ∧
      length (objects st') = length (objects st) ∧
      (∀ k, k < i → objects st' !! k = objects st !! k) ∧
      (∀ n, n < count →
         ∃ row',
           objects st' !! (i + n) = Some row' ∧ length row' = 6 ∧
           (∀ t, ts !! (7 * n) = Some t → ids !! n = Some (c_str t)) ∧
           (∀ row m old,
              objects st !! (i + n) = Some row → m < 6 →
              7 * n + S (S m) < length ts ∨ length ts ≤ 7 * n + S m →
              resize 6 row !! m = Some old →
              row' !! m
              = Some (field_after atof (ts !! (7 * n + S m)) old))).
Proof.
  induction count as [|c IH]; intros i ts st Hinv Hlen.
  - exists st, []. simpl. rewrite app_nil_r. split_and!; try done. lia.
  - cbn [read_records].
    destruct (lookup_lt_is_Some_2 (objects st) i ltac:(lia)) as [row Hrow].
    destruct (read_record_spec i ts st row Hinv Hrow)
      as (st1 & id & row1 & -> & Hinv1 & Hids1 & Hobjs1 & Hlen1 & Hid & Hf1).
    cbn [bind].
    assert (Hsize : length (objects st1) = length (objects st))
      by (by rewrite Hobjs1, length_insert).
    destruct (IH (S i) (drop 7 ts) st1 Hinv1 ltac:(lia))
      as (st' & ids & -> & Hids' & Hidl & Hsize' & Hbefore & Hrows).
    exists st', (id :: ids). split; [reflexivity|].
    split_and!.
    + by rewrite Hids', Hids1, <- app_assoc.
    + simpl. lia.
    + congruence.
    + intros k Hk. rewrite Hbefore by lia. rewrite Hobjs1.
      apply list_lookup_insert_ne. lia.
    + intros [|n] Hn.
      * exists row1. rewrite Nat.add_0_r, Hbefore by lia. rewrite Hobjs1.
        split_and!; [apply list_lookup_insert_eq; lia|done| |].
        -- intros t Ht. simpl. f_equal. by apply Hid.
        -- intros row0 m old Hrow0 Hm Hts Hold.
           assert (row0 = row) as -> by congruence.
           apply Hf1; [done|lia|done].
      * destruct (Hrows n ltac:(lia)) as (row' & Hk' & Hlen' & Hidn & Hfn).
        exists row'. rewrite Nat.add_succ_r. split_and!; [done|done| |].
        -- intros t Ht. simpl. apply Hidn. rewrite lookup_drop.
           rewrite <- Ht. f_equal. lia.
        -- intros row0 m old Hrow0 Hm Hts Hold.
           replace (7 * S n + S m) with (7 + (7 * n + S m)) by lia.
           rewrite <- lookup_drop. apply (Hfn row0); [|done| |done].
           ++ simpl. rewrite Hobjs1, list_lookup_insert_ne by lia. done.
           ++ rewrite length_drop. lia.
Qed.

(** ** From rows to boxes *)

Lemma collision_cube_at_spec (objs : list (list Q)) (ids : list string)
    (frame : string) (k : nat) (row : list Q) (id : string) :
  objs !! k = Some row → length row = 6 → ids !! k = Some id →
  ∃ px py pz d0 d1 d2,
    row = [px; py; pz; d0; d1; d2] ∧
    collision_cube_at now objs ids frame k
    = Ok (cube_of (now k) frame id px py pz d0 d1 d2).
Proof.
  intros Hrow Hlen Hid.
  destruct row as [|px [|py [|pz [|d0 [|d1 [|d2 [|]]]]]]]; try discriminate Hlen.
  exists px, py, pz, d0, d1, d2. split; [reflexivity|].
  unfold collision_cube_at.
  rewrite (at_Some _ _ _ Hrow), (at_Some _ _ _ Hid). reflexivity.
Qed.

Lemma collision_cubes_from_spec (objs : list (list Q)) (ids : list string)
    (frame : string) (count : nat) :
  ∀ i,
    (∀ k, i ≤ k < i + count →
       ∃ c, collision_cube_at now objs ids frame k = Ok c) →
    ∃ cubes,
      collision_cubes_from now objs ids frame count i = Ok cubes ∧
      length cubes = count ∧
      ∀ j, j < count →
        ∃ c, cubes !! j = Some c ∧
             collision_cube_at now objs ids frame (i + j) = Ok c.
Proof.
  induction count as [|n IH]; intros i Hall.
  - exists []. simpl. split_and!; try done. intros j Hj. lia.
  - cbn [collision_cubes_from].
    destruct (Hall i ltac:(lia)) as [c Hc]. rewrite Hc. cbn [bind].
    destruct (IH (S i) ltac:(intros k Hk; apply Hall; lia))
      as (cubes & -> & Hlen & Hcubes).
    cbn [bind]. exists (c :: cubes). split_and!; [done|simpl; lia|].
    intros [|j] Hj.
    + exists c. by rewrite Nat.add_0_r.
    + destruct (Hcubes j ltac:(lia)) as (c' & Hj' & Hc').
      exists c'. split; [done|]. by rewrite Nat.add_succ_r.
Qed.

Lemma getCollisionCubes_spec (objs : list (list Q)) (ids : list string)
    (frame : string) :
  length ids = length objs →
  (∀ k, k < length objs → ∃ row, objs !! k = Some row ∧ length row = 6) →
  ∃ cubes,
    getCollisionCubes now objs ids frame = Ok cubes ∧
    length cubes = length objs ∧
    ∀ k, k < length objs →
      ∃ row id px py pz d0 d1 d2,
        objs !! k = Some row ∧ ids !! k = Some id ∧
        row = [px; py; pz; d0; d1; d2] ∧
        cubes !! k = Some (cube_of (now k) frame id px py pz d0 d1 d2).
Proof.
  intros Hlen Hrows. unfold getCollisionCubes.
  rewrite Hlen, Nat.eqb_refl. cbn [negb].
  assert (Hat : ∀ k, k < length objs →
    ∃ row id px py pz d0 d1 d2,
      objs !! k = Some row ∧ ids !! k = Some id ∧
      row = [px; py; pz; d0; d1; d2] ∧
      collision_cube_at now objs ids frame k
      = Ok (cube_of (now k) frame id px py pz d0 d1 d2)).
  { intros k Hk. destruct (Hrows k Hk) as (row & Hrow & Hrl).
    destruct (lookup_lt_is_Some_2 ids k ltac:(lia)) as [id Hid].
    destruct (collision_cube_at_spec objs ids frame k row id Hrow Hrl Hid)
      as (px & py & pz & d0 & d1 & d2 & Hr & Hc).
    by exists row, id, px, py, pz, d0, d1, d2. }
  destruct (collision_cubes_from_spec objs ids frame (length objs) 0)
    as (cubes & Hcubes & Hcl & Hcube).
  { intros k Hk. destruct (Hat k ltac:(lia))
      as (? & ? & ? & ? & ? & ? & ? & ? & _ & _ & _ & Hc). eauto. }
  exists cubes. split_and!; try done.
  intros k Hk. destruct (Hcube k Hk) as (c & Hck & Hc). simpl in Hc.
  destruct (Hat k Hk) as (row & id & px & py & pz & d0 & d1 & d2
                          & Hrow & Hid & Hr & Hc').
  exists row, id, px, py, pz, d0, d1, d2. split_and!; try done. congruence.
Qed.


(** ** The loader *)

Lemma fopen_Some (filename content : string) :
  fs !! filename = Some content →
  fopen fs filename
  = Some {| rest := list_ascii_of_string content; eof := false |}.
Proof. intros H. unfold fopen. by rewrite H. Qed.

(** The outer loop pushes one name per row that it fills: the two lists
    that the loader hands to [getCollisionCubes] have the same length, so the
    length check of [getCollisionCubes] never fires there. *)
Lemma read_records_same_length (ts : list (list ascii)) (st st' : locals) :
  loader_inv ts st → object_ids st = [] →
  read_records atof (length (objects st)) 0 st = Ok st' →
  length (object_ids st') = length (objects st').
Proof.
  intros Hinv Hnil Hrun.
  destruct (read_records_spec (length (objects st)) 0 ts st Hinv ltac:(lia))
    as (st1 & ids & Hrun1 & Hids & Hidl & Hobjs & _).
  rewrite Hrun in Hrun1. injection Hrun1 as <-.
  rewrite Hids, Hnil. simpl. lia.
Qed.

(** C10. For a file name that cannot be opened the loader returns the empty
    list and no error, and [getCollisionCubes], through which it returns,
    gives the empty list whenever the id list and the object list differ in
    length. *)
Theorem loader_returns_empty_list :
  (∀ filename frame : string,
     fs !! filename = None →
     getCollisionObjects atoi atof now fs filename frame = Ok []) ∧
  (∀ (objs : list (list Q)) (ids : list string) (frame : string),
     length ids ≠ length objs →
     getCollisionCubes now objs ids frame = Ok []).
Proof.
  split.
  - intros filename frame H. unfold getCollisionObjects, fopen. by rewrite H.
  - intros objs ids frame H. unfold getCollisionCubes.
    destruct (Nat.eqb_spec (length ids) (length objs)); [done|reflexivity].
Qed.

End Loops.

(** The boxes of the truncated file: the unreadable size of [box1] is 0; of
    [box2] only the first number is read, since its second number is the last
    word of a file that does not end in white space; the missing third record
    is all zeros, under the last word read. *)
Example truncated_file_boxes :
  getCollisionObjects LoaderExamples.atoi LoaderExamples.atof
    LoaderExamples.now LoaderExamples.disk "objects.txt" "map"
  = Ok [cube_of 0 "map" "box1" (1 # 2) (1 # 4) 1 (1 # 10) 0 (1 # 10);
        cube_of 0 "map" "box2" (3 # 2) 0 0 0 0 0;
        cube_of 0 "map" "2" 0 0 0 0 0 0].
Proof. by vm_compute. Qed.

(** A word of 1024 characters does not fit [sTemp]. *)
Example overlong_word :
  fscanf_s {| rest := replicate 1024 "x"%char; eof := false |} None
  = Err BufferOverflow.
Proof. by vm_compute. Qed.

Lemma loader_returns_empty_list_witness :
  getCollisionObjects LoaderExamples.atoi LoaderExamples.atof
    LoaderExamples.now LoaderExamples.disk "missing.txt" "map" = Ok [] ∧
  getCollisionCubes LoaderExamples.now [[1; 2; 3; 4; 5; 6]%Q] [] "map" = Ok [].
Proof.
  destruct (loader_returns_empty_list LoaderExamples.atoi LoaderExamples.atof
              LoaderExamples.now LoaderExamples.disk) as [Hopen Hcubes].
  split.
  - apply Hopen. reflexivity.
  - apply Hcubes. simpl. lia.
Defined.

End LoaderSpec.

(** * More properties of [call_planner.cpp] *)

Module CallPlannerSpec.

Import call_planner LoaderSpec.

Local Open Scope nat_scope.

(** Inversion of a chain of binds that ends well. *)
Ltac bind_inv H :=
  unfold bind in H;
  repeat match type of H with
         | match ?r with Ok _ => _ | Err _ => _ end = Ok _ =>
             let E := fresh "E" in destruct r eqn:E; [|discriminate H]
         end.

Lemma at_Ok {A : Type} (v : list A) (i : nat) (a : A) :
  at_ v i = Ok a ↔ v !! i = Some a.
Proof.
  unfold at_. destruct (v !! i); split; intros H; by inversion H.
Qed.

Lemma at_Err {A : Type} (v : list A) (i : nat) (e : error) :
  at_ v i = Err e → e = OutOfRange ∧ length v ≤ i.
Proof.
  unfold at_. destruct (v !! i) eqn:E; [discriminate|].
  intros [= <-]. split; [done|]. by apply lookup_ge_None.
Qed.

Section Boxes.

Variable atoi : string → Z.
Variable atof : string → Q.
Variable now : nat → Z.
Variable fs : gmap string string.

(** ** [getCollisionCube] and [getCollisionCubes] *)

Lemma collision_cube_at_inv (objs : list (list Q)) (ids : list string)
    (frame : string) (k : nat) (c : CollisionObject) :
  collision_cube_at now objs ids frame k = Ok c →
  ∃ row id px py pz d0 d1 d2,
    objs !! k = Some row ∧ ids !! k = Some id ∧
    take 6 row = [px; py; pz; d0; d1; d2] ∧
    c = cube_of (now k) frame id px py pz d0 d1 d2.
Proof.
  unfold collision_cube_at. intros H. bind_inv H.
  unfold getCollisionCube in H. simpl in H. injection H as <-.
  repeat match goal with
         | Hx : at_ _ _ = Ok _ |- _ => apply at_Ok in Hx
         end.
  match goal with Hr : objs !! k = Some ?r |- _ => rename r into row end.
  destruct row as [|px [|py [|pz [|d0 [|d1 [|d2 tl]]]]]]; try discriminate.
  repeat match goal with
         | Hx : _ !! _ = Some _ |- _ => simpl in Hx; injection Hx as <-
         end.
  eexists _, _, _, _, _, _, _, _. split_and!; try done.
Qed.

Lemma collision_cube_at_long (objs : list (list Q)) (ids : list string)
    (frame : string) (k : nat) (row : list Q) (id : string) :
  objs !! k = Some row → 6 ≤ length row → ids !! k = Some id →
  ∃ c, collision_cube_at now objs ids frame k = Ok c ∧
       object_id c = id ∧ numbers_of c = take 6 row.
Proof.
  intros Hrow Hlen Hid.
  destruct row as [|px [|py [|pz [|d0 [|d1 [|d2 tl]]]]]];
    try (simpl in Hlen; lia).
  eexists. unfold collision_cube_at.
  rewrite (proj2 (at_Ok _ _ _) Hrow), (proj2 (at_Ok _ _ _) Hid).
  split; [reflexivity|]. by split.
Qed.

Lemma collision_cubes_from_inv (objs : list (list Q)) (ids : list string)
    (frame : string) (count : nat) :
  ∀ i cubes,
    collision_cubes_from now objs ids frame count i = Ok cubes →
    length cubes = count ∧
    ∀ j, j < count →
      ∃ c, cubes !! j = Some c ∧
           collision_cube_at now objs ids frame (i + j) = Ok c.
Proof.
  induction count as [|n IH]; intros i cubes H.
  - injection H as <-. split; [done|]. intros j Hj. lia.
  - cbn [collision_cubes_from] in H. bind_inv H. injection H as <-.
    match goal with
    | Hc : collision_cubes_from _ _ _ _ _ _ = Ok _ |- _ =>
        destruct (IH _ _ Hc) as [Hlen Hall]
    end.
    split; [simpl; lia|]. intros [|j] Hj.
    + eexists. split; [reflexivity|]. by rewrite Nat.add_0_r.
    + destruct (Hall j ltac:(lia)) as (c & Hc1 & Hc2).
      exists c. split; [done|]. by rewrite Nat.add_succ_r.
Qed.

Lemma collision_cube_at_Err (objs : list (list Q)) (ids : list string)
    (frame : string) (k : nat) (e : error) :
  collision_cube_at now objs ids frame k = Err e → e = OutOfRange.
Proof.
  unfold collision_cube_at, getCollisionCube.
  repeat match goal with
         | |- context [at_ ?v ?i] =>
             let E := fresh "E" in
             destruct (at_ v i) eqn:E; cbn [bind];
             [|intros [= <-]; by destruct (at_Err _ _ _ E)]
         end.
  discriminate.
Qed.

Lemma collision_cubes_from_Err (objs : list (list Q)) (ids : list string)
    (frame : string) (count : nat) :
  ∀ i e, collision_cubes_from now objs ids frame count i = Err e →
         e = OutOfRange.
Proof.
  induction count as [|n IH]; intros i e; [discriminate|].
  cbn [collision_cubes_from].
  destruct (collision_cube_at now objs ids frame i) eqn:E; cbn [bind].
  - destruct (collision_cubes_from now objs ids frame n (S i)) eqn:E';
      cbn [bind]; [discriminate|]. intros [= <-]. by eapply IH.
  - intros [= <-]. by eapply collision_cube_at_Err.
Qed.

(** X. [getCollisionCubes], given as many names as rows, makes its boxes
    exactly when every row has six numbers or more: the boxes then carry the
    names in order and the first six numbers of their rows (what follows
    them is ignored); a shorter row makes it read past the end of the
    row. *)
Theorem getCollisionCubes_rows (objs : list (list Q)) (ids : list string)
    (frame : string) :
  length ids = length objs →
  (Forall (λ row, 6 ≤ length row) objs →
   ∃ cubes,
     getCollisionCubes now objs ids frame = Ok cubes ∧
     map object_id cubes = ids ∧
     map numbers_of cubes = map (take 6) objs) ∧
  (¬ Forall (λ row, 6 ≤ length row) objs →
   getCollisionCubes now objs ids frame = Err OutOfRange).
Proof.
  intros Hlen. unfold getCollisionCubes. rewrite Hlen, Nat.eqb_refl.
  cbn [negb]. split.
  - intros Hrows.
    assert (Hat : ∀ k, k < length objs →
      ∃ c row id, collision_cube_at now objs ids frame k = Ok c ∧
        objs !! k = Some row ∧ ids !! k = Some id ∧
        object_id c = id ∧ numbers_of c = take 6 row).
    { intros k Hk.
      destruct (lookup_lt_is_Some_2 objs k Hk) as [row Hrow].
      destruct (lookup_lt_is_Some_2 ids k ltac:(lia)) as [id Hid].
      pose proof (proj1 (Forall_lookup _ _) Hrows k row Hrow) as Hsix.
      destruct (collision_cube_at_long objs ids frame k row id Hrow Hsix Hid)
        as (c & Hc & Hn & Hv).
      by exists c, row, id. }
    destruct (collision_cubes_from_spec now objs ids frame (length objs) 0)
      as (cubes & Hcubes & Hcl & Hcube).
    { intros k Hk. destruct (Hat k ltac:(lia)) as (c & _ & _ & Hc & _). eauto. }
    exists cubes. split; [done|]. split.
    + apply list_eq. intros k. rewrite list_lookup_fmap.
      destruct (decide (k < length objs)) as [Hk|Hk].
      * destruct (Hcube k Hk) as (c & Hck & Hc). simpl in Hc.
        destruct (Hat k Hk) as (c' & row & id & Hc' & _ & Hid & Hn & _).
        rewrite Hck, Hid. simpl. congruence.
      * assert (Hc1 : length cubes ≤ k) by lia.
        assert (Hc2 : length ids ≤ k) by lia.
        by rewrite (lookup_ge_None_2 cubes k Hc1), (lookup_ge_None_2 ids k Hc2).
    + apply list_eq. intros k. rewrite !list_lookup_fmap.
      destruct (decide (k < length objs)) as [Hk|Hk].
      * destruct (Hcube k Hk) as (c & Hck & Hc). simpl in Hc.
        destruct (Hat k Hk) as (c' & row & id & Hc' & Hrow & _ & _ & Hv).
        rewrite Hck, Hrow. simpl. congruence.
      * assert (Hc1 : length cubes ≤ k) by lia.
        assert (Hc2 : length objs ≤ k) by lia.
        by rewrite (lookup_ge_None_2 cubes k Hc1), (lookup_ge_None_2 objs k Hc2).
  - intros Hbad.
    destruct (collision_cubes_from now objs ids frame (length objs) 0)
      as [cubes|e] eqn:E.
    + exfalso. apply Hbad. apply Forall_lookup. intros k row Hrow.
      destruct (collision_cubes_from_inv _ _ _ _ _ _ E) as [_ Hall].
      destruct (Hall k (lookup_lt_Some _ _ _ Hrow)) as (c & _ & Hc).
      simpl in Hc. apply collision_cube_at_inv in Hc
        as (row' & ? & ? & ? & ? & ? & ? & ? & Hrow' & _ & Htake & _).
      assert (row' = row) as -> by congruence.
      apply (f_equal length) in Htake. rewrite length_take in Htake.
      cbn [length] in Htake. lia.
    + f_equal. by eapply collision_cubes_from_Err.
Qed.

(** ** What the loader returns *)

Lemma getCollisionCubes_inv (objs : list (list Q)) (ids : list string)
    (frame : string) (cubes : list CollisionObject) :
  getCollisionCubes now objs ids frame = Ok cubes →
  ∀ i o, cubes !! i = Some o →
    ∃ id px py pz d0 d1 d2,
      o = cube_of (now i) frame id px py pz d0 d1 d2.
Proof.
  unfold getCollisionCubes.
  destruct (negb (length ids =? length objs)).
  - intros [= <-] i o Hi. by rewrite lookup_nil in Hi.
  - intros H i o Hi.
    destruct (collision_cubes_from_inv _ _ _ _ _ _ H) as [Hlen Hall].
    destruct (Hall i ltac:(rewrite <- Hlen; by eapply lookup_lt_Some))
      as (c & Hc & Hat).
    assert (c = o) as -> by congruence. simpl in Hat.
    apply collision_cube_at_inv in Hat
      as (? & id & px & py & pz & d0 & d1 & d2 & _ & _ & _ & ->).
    by exists id, px, py, pz, d0, d1, d2.
Qed.

Lemma getCollisionObjects_inv (filename frame : string)
    (objs : list CollisionObject) :
  getCollisionObjects atoi atof now fs filename frame = Ok objs →
  ∀ i o, objs !! i = Some o →
    ∃ id px py pz d0 d1 d2,
      o = cube_of (now i) frame id px py pz d0 d1 d2.
Proof.
  unfold getCollisionObjects. destruct (fopen fs filename).
  - intros H. bind_inv H.
    match type of H with
    | (if ?b then _ else _) = _ => destruct b; [discriminate H|]
    end.
    bind_inv H. by eapply getCollisionCubes_inv.
  - intros [= <-] i o Hi. by rewrite lookup_nil in Hi.
Qed.

(** X. Whatever the file holds, every object that the loader returns is a
    box to add, in the frame given, stamped with the time of its making: one
    shape of type BOX with three sizes, and one pose whose orientation is the
    identity (0, 0, 0, 1). *)
Theorem getCollisionObjects_boxes (filename frame : string)
    (objs : list CollisionObject) :
  getCollisionObjects atoi atof now fs filename frame = Ok objs →
  ∀ i o, objs !! i = Some o →
    frame_id o = frame ∧ operation o = ADD ∧ stamp o = now i ∧
    (∃ d0 d1 d2, shapes o = [{| type := BOX; dimensions := [d0; d1; d2] |}]) ∧
    (∃ p, poses o = [{| position := p;
                        orientation :=
                          {| qx := 0; qy := 0; qz := 0; qw := 1 |} |}]).
Proof.
  intros H i o Hi.
  destruct (getCollisionObjects_inv _ _ _ H i o Hi)
    as (id & px & py & pz & d0 & d1 & d2 & ->).
  simpl. split_and!; try done; eauto.
Qed.

(** ** The count *)

(** X. A file without a single word makes the loader convert a buffer that
    was never written. *)
Theorem getCollisionObjects_no_words (filename frame content : string) :
  fs !! filename = Some content →
  tokens (list_ascii_of_string content) = [] →
  getCollisionObjects atoi atof now fs filename frame
  = Err UninitializedRead.
Proof.
  intros Hfile Hnone. unfold getCollisionObjects.
  rewrite (fopen_Some _ _ _ Hfile). unfold scan.
  cbn [fCfg sTemp].
  by rewrite (fscanf_s_exhausted
                {| rest := list_ascii_of_string content; eof := false |}
                None Hnone).
Qed.

(** X. A negative count makes the loader resize [objects] to a size that no
    vector can have: the call ends in a length error, before any record is
    read. *)
Theorem getCollisionObjects_negative_count (filename frame content : string)
    (t0 : list ascii) (ts : list (list ascii)) :
  fs !! filename = Some content →
  tokens (list_ascii_of_string content) = t0 :: ts →
  fits t0 →
  (atoi (c_str t0) < 0)%Z →
  getCollisionObjects atoi atof now fs filename frame = Err LengthError.
Proof.
  intros Hfile Htok Hfit Hneg. unfold getCollisionObjects.
  rewrite (fopen_Some _ _ _ Hfile). unfold scan.
  cbn [fCfg sTemp].
  destruct (fscanf_s_word
              {| rest := list_ascii_of_string content; eof := false |}
              None t0 ts Htok Hfit) as (r & -> & _).
  cbn [bind sTemp read_buf].
  by destruct (Z.ltb_spec (atoi (c_str t0)) 0) as [_|?]; [|lia].
Qed.


(** ** The end of the file *)

Lemma ends_in_space_cons (a : ascii) (s : list ascii) :
  s ≠ [] → ends_in_space (a :: s) = ends_in_space s.
Proof. unfold ends_in_space. by destruct s. Qed.

Lemma skip_ws_ends (s : list ascii) :
  skip_ws s ≠ [] → ends_in_space (skip_ws s) = ends_in_space s.
Proof.
  induction s as [|a s IH]; [done|]. simpl.
  destruct (isspace a); [|done]. intros Hne.
  rewrite (IH Hne). symmetry. apply ends_in_space_cons.
  intros ->. by apply Hne.
Qed.

Lemma skip_ws_nil_ends (s : list ascii) :
  skip_ws s = [] → s ≠ [] → ends_in_space s = true.
Proof.
  induction s as [|a s IH]; [done|]. simpl.
  destruct (isspace a) eqn:Ha; [|done]. intros Hs _.
  destruct s as [|b s]; [by unfold ends_in_space; simpl|].
  rewrite ends_in_space_cons by done. by apply IH.
Qed.

Lemma take_token_ends (s t r : list ascii) :
  take_token s = (t, r) → s ≠ [] →
  ends_in_space s = match r with [] => false | _ => ends_in_space r end.
Proof.
  revert t r. induction s as [|c s IH]; intros t r; [done|]. simpl.
  destruct (isspace c) eqn:Hc.
  - by intros [= <- <-] _.
  - destruct (take_token s) as [t' r'] eqn:E. intros [= <- <-] _.
    destruct s as [|b s].
    + simpl in E. injection E as <- <-. unfold ends_in_space. simpl.
      exact Hc.
    + rewrite ends_in_space_cons by done. by apply (IH t' r').
Qed.

Lemma fscanf_s_word_exact (fp : FILE) (buf : option string) (t : list ascii)
    (ts : list (list ascii)) :
  tokens (rest fp) = t :: ts → fits t →
  ∃ r, fscanf_s fp buf
       = Ok (1%Z,
             {| rest := r;
                eof := eof fp || match r with [] => true | _ => false end |},
             Some (c_str t))
       ∧ tokens r = ts
       ∧ (r ≠ [] → ends_in_space r = ends_in_space (rest fp))
       ∧ (ts = [] → (r = [] ↔ ends_in_space (rest fp) = false)).
Proof.
  intros Htok Hfit.
  destruct (fscanf_s_word fp buf t ts Htok Hfit) as (r & Hscan & Hr).
  exists r. split; [done|]. split; [done|].
  unfold fscanf_s in Hscan. rewrite tokens_unfold in Htok.
  destruct (skip_ws (rest fp)) as [|c s1] eqn:Es; [discriminate|].
  destruct (take_token (c :: s1)) as [t' r'] eqn:Et.
  injection Htok as -> Hts.
  destruct (sTemp_size <=? length t); [discriminate|].
  injection Hscan as ->.
  pose proof (skip_ws_ends (rest fp)) as He. rewrite Es in He.
  specialize (He ltac:(done)).
  pose proof (take_token_ends _ _ _ Et ltac:(done)) as Hte.
  rewrite He in Hte. split.
  - intros Hne. destruct r; [done|]. by rewrite Hte.
  - intros ->. rewrite Hte. destruct r as [|b r]; [done|].
    split; [done|]. intros Hfalse.
    rewrite tokens_unfold in Hr.
    destruct (skip_ws (b :: r)) as [|c' s'] eqn:Es'.
    + rewrite (skip_ws_nil_ends _ Es') in Hfalse; done.
    + by destruct (take_token (c' :: s')).
Qed.

Lemma tail_of_drop {A : Type} (l : list A) (k : nat) :
  tail (drop k l) = drop (S k) l.
Proof.
  revert l. induction k as [|k IH]; intros [|a l]; simpl; done.
Qed.

Lemma buffer_after_word (W : list (list ascii)) (p : nat) (t : list ascii) :
  W !! p = Some t → buffer_after W p = c_str t.
Proof.
  intros H. unfold buffer_after.
  pose proof (lookup_lt_Some _ _ _ H) as Hlt.
  rewrite Nat.min_l by lia. by rewrite (nth_lookup_Some _ _ _ _ H).
Qed.

Lemma buffer_after_end (W : list (list ascii)) (p q : nat) :
  length W ≤ S p → length W ≤ S q → buffer_after W p = buffer_after W q.
Proof. intros Hp Hq. unfold buffer_after. by rewrite !Nat.min_r by lia. Qed.

Lemma loader_state_ext (W : list (list ascii)) (sp : bool) (k : nat)
    (st st' : locals) :
  fCfg st' = fCfg st → sTemp st' = sTemp st →
  loader_state W sp k st → loader_state W sp k st'.
Proof.
  unfold loader_state. intros Hf Hs (? & Hinv & ? & ? & ?).
  rewrite Hf, Hs. split_and!; try done.
  by apply (loader_inv_ext _ st).
Qed.

Lemma scan_exact (W : list (list ascii)) (sp : bool) (k : nat) (st : locals) :
  loader_state W sp k st →
  ∃ st', scan st = Ok st' ∧ loader_state W sp (S k) st' ∧
         object_ids st' = object_ids st ∧ objects st' = objects st.
Proof.
  intros (Hk & Hinv & Hbuf & Hsp & Heof).
  destruct (scan_spec _ st Hinv)
    as (st' & Hscan & Hinv' & Hids & Hobjs & Hend & Hword).
  exists st'. split; [done|]. split; [|done].
  assert (Hinv1 : loader_inv (drop (S k) W) st').
  { by rewrite tail_of_drop in Hinv'. }
  pose proof Hinv as (Htok & Hfits & _ & Hclosed).
  unfold scan in Hscan.
  destruct (drop k W) as [|t ts'] eqn:Hd.
  - assert (Hlen : length W ≤ k).
    { apply (f_equal length) in Hd. rewrite length_drop in Hd.
      simpl in Hd. lia. }
    rewrite (fscanf_s_exhausted _ (sTemp st) Htok) in Hscan.
    simpl in Hscan. injection Hscan as <-.
    unfold loader_state. simpl. split_and!; try done; try lia.
    rewrite Hbuf. f_equal. apply buffer_after_end; lia.
  - assert (Hw : W !! k = Some t).
    { rewrite <- (Nat.add_0_r k), <- lookup_drop, Hd. done. }
    pose proof (lookup_lt_Some _ _ _ Hw) as Hlt.
    assert (Hlen : length ts' = length W - S k).
    { apply (f_equal length) in Hd. rewrite length_drop in Hd.
      simpl in Hd. lia. }
    apply Forall_cons in Hfits as [Hfit _].
    destruct (fscanf_s_word_exact (fCfg st) (sTemp st) t ts' Htok Hfit)
      as (r & Hr & Htr & Hre & Hlast).
    rewrite Hr in Hscan. simpl in Hscan. injection Hscan as <-.
    assert (Hne : rest (fCfg st) ≠ []).
    { intros Hnil. rewrite Hnil in Htok. discriminate Htok. }
    assert (Hopen : eof (fCfg st) = false).
    { destruct (eof (fCfg st)); [|done]. by destruct (Hne (Hclosed eq_refl)). }
    rewrite Hopen in Hinv1 |- *. simpl in Hinv1.
    unfold loader_state. simpl. rewrite Nat.sub_0_r.
    split_and!; try done; try lia.
    + f_equal. symmetry. by apply buffer_after_word.
    + intros Hr0. rewrite (Hre Hr0). by apply Hsp.
    + rewrite (Hsp Hne) in Hlast. split.
      * intros Hnil. right. destruct r; [|done].
        assert (ts' = []) as -> by (by rewrite tokens_nil in Htr).
        simpl in Hlen. split; [lia|]. by apply Hlast.
      * intros [Hlt'|[Hlast' Hfalse]]; [lia|].
        assert (ts' = []) as -> by (destruct ts'; [done|simpl in Hlen; lia]).
        by rewrite (proj2 (Hlast eq_refl) Hfalse).
Qed.

(** ** The loops, word by word *)

Lemma store_field_exact (W : list (list ascii)) (sp : bool) (i j k : nat)
    (st1 : locals) (row : list Q) :
  loader_state W sp (S k) st1 → objects st1 !! i = Some row →
  j < length row →
  ∃ st2 row2,
    (if feof (fCfg st1) then Ok st1
     else s <- read_buf (sTemp st1) ;;
          if strlen s =? 0 then Ok st1
          else objs <- assign (objects st1) i j (atof s) ;;
               Ok {| fCfg := fCfg st1; sTemp := sTemp st1;
                     object_ids := object_ids st1; objects := objs |})
    = Ok st2 ∧
    loader_state W sp (S k) st2 ∧ object_ids st2 = object_ids st1 ∧
    objects st2 = <[i := row2]> (objects st1) ∧ length row2 = length row ∧
    (∀ m, m ≠ j → row2 !! m = row !! m) ∧
    (∀ old, row !! j = Some old →
       row2 !! j = Some (stored_after atof W sp k old)).
Proof.
  intros Hst Hrow Hj.
  pose proof Hst as (_ & _ & Hbuf & _ & Heof).
  simpl in Hbuf. rewrite Nat.sub_0_r in Hbuf.
  assert (Hkeep : objects st1 = <[i := row]> (objects st1))
    by (by rewrite (list_insert_id _ _ _ Hrow)).
  destruct (feof (fCfg st1)) eqn:Hf.
  - exists st1, row. split_and!; try done.
    intros old Hold. rewrite Hold. f_equal. unfold stored_after.
    destruct (W !! k) as [t|] eqn:Hw; [|done].
    pose proof (lookup_lt_Some _ _ _ Hw) as Hlt.
    destruct (proj1 Heof Hf) as [Hgt|[Hlast ->]]; [lia|].
    by rewrite Hlast, Nat.eqb_refl.
  - unfold feof in Hf. rewrite Hbuf. cbn [read_buf bind].
    assert (Hw : ∃ t, W !! k = Some t ∧
                      (S k =? length W) && negb sp = false).
    { destruct (W !! k) as [t|] eqn:Hw.
      - exists t. split; [done|].
        destruct (S k =? length W) eqn:Hl; [|done].
        apply Nat.eqb_eq in Hl. destruct sp; [done|].
        rewrite (proj2 Heof) in Hf; [done|by right].
      - apply lookup_ge_None in Hw.
        rewrite (proj2 Heof) in Hf; [done|left; lia]. }
    destruct Hw as (t & Hw & Hlast).
    rewrite (buffer_after_word _ _ _ Hw).
    assert (Hval : ∀ old,
      stored_after atof W sp k old = field_after atof (Some t) old).
    { intros old. unfold stored_after. by rewrite Hw, Hlast. }
    destruct (strlen (c_str t) =? 0) eqn:Hz.
    + exists st1, row. split_and!; try done.
      intros old Hold. rewrite Hold, Hval. simpl. by rewrite Hz.
    + unfold assign. rewrite (at_Some _ _ _ Hrow). cbn [bind].
      destruct (lookup_lt_is_Some_2 row j Hj) as [v Hv].
      rewrite (at_Some _ _ _ Hv). cbn [bind].
      eexists _, (<[j := atof (c_str t)]> row). split; [reflexivity|].
      split_and!; try done.
      * apply (loader_state_ext _ _ _ st1); [done| |done].
        simpl. by rewrite Hbuf, (buffer_after_word _ _ _ Hw).
      * by rewrite length_insert.
      * intros m Hm. by apply list_lookup_insert_ne.
      * intros old _. rewrite Hval. simpl. rewrite Hz.
        by apply list_lookup_insert_eq.
Qed.

Lemma read_fields_exact (W : list (list ascii)) (sp : bool) (i count : nat) :
  ∀ (j k : nat) (st : locals) (row : list Q),
    loader_state W sp k st → objects st !! i = Some row →
    j + count ≤ length row →
    ∃ st' row',
      read_fields atof count i j st = Ok st' ∧
      loader_state W sp (k + count) st' ∧
      object_ids st' = object_ids st ∧
      objects st' = <[i := row']> (objects st) ∧
      length row' = length row ∧
      (∀ m, m < j → row' !! m = row !! m) ∧
      (∀ m old, m < count → row !! (j + m) = Some old →
         row' !! (j + m) = Some (stored_after atof W sp (k + m) old)).
Proof.
  induction count as [|c IH]; intros j k st row Hst Hrow Hlen.
  - exists st, row. simpl. rewrite (list_insert_id _ _ _ Hrow), Nat.add_0_r.
    split_and!; try done. intros m old Hm. lia.
  - cbn [read_fields].
    destruct (scan_exact W sp k st Hst) as (st1 & -> & Hst1 & Hids1 & Hobjs1).
    cbn [bind].
    assert (Hrow1 : objects st1 !! i = Some row) by (by rewrite Hobjs1).
    destruct (store_field_exact W sp i j k st1 row Hst1 Hrow1 ltac:(lia))
      as (st2 & row2 & -> & Hst2 & Hids2 & Hobjs2 & Hlen2 & Hother & Hj).
    cbn [bind].
    assert (Hrow2 : objects st2 !! i = Some row2).
    { rewrite Hobjs2. apply list_lookup_insert_eq. by eapply lookup_lt_Some. }
    destruct (IH (S j) (S k) st2 row2 Hst2 Hrow2 ltac:(lia))
      as (st' & row' & -> & Hst' & Hids' & Hobjs' & Hlen' & Hbefore & Hfields).
    exists st', row'. split; [reflexivity|].
    replace (k + S c) with (S k + c) by lia.
    split_and!; try done; try congruence.
    + by rewrite Hobjs', Hobjs2, list_insert_insert_eq, Hobjs1.
    + intros m Hm. rewrite Hbefore by lia. apply Hother. lia.
    + intros [|m] old Hm Hold.
      * replace (k + 0) with k by lia. replace (j + 0) with j in * by lia.
        rewrite Hbefore by lia. by apply Hj.
      * replace (j + S m) with (S j + m) in * by lia.
        replace (k + S m) with (S k + m) by lia.
        apply Hfields; [lia|]. rewrite Hother by lia. exact Hold.
Qed.

Lemma read_record_exact (W : list (list ascii)) (sp : bool) (i k : nat)
    (st : locals) (row : list Q) :
  loader_state W sp k st → objects st !! i = Some row →
  ∃ st' row',
    read_record atof i st = Ok st' ∧
    loader_state W sp (k + 7) st' ∧
    object_ids st' = object_ids st ++ [buffer_after W k] ∧
    objects st' = <[i := row']> (objects st) ∧
    length row' = 6 ∧
    (∀ m old, m < 6 → resize 6 row !! m = Some old →
       row' !! m = Some (stored_after atof W sp (k + 1 + m) old)).
Proof.
  intros Hst Hrow. unfold read_record.
  destruct (scan_exact W sp k st Hst) as (st1 & -> & Hst1 & Hids1 & Hobjs1).
  cbn [bind].
  pose proof Hst1 as (_ & _ & Hbuf & _).
  simpl in Hbuf. rewrite Nat.sub_0_r in Hbuf.
  assert (Hrb : read_buf (sTemp st1) = Ok (buffer_after W k))
    by (by rewrite Hbuf).
  assert (Hat : at_ (objects st1) i = Ok row)
    by (rewrite Hobjs1; by apply at_Some).
  rewrite Hrb, Hat. cbn [bind].
  set (st2 := {| fCfg := fCfg st1; sTemp := sTemp st1;
                 object_ids := object_ids st1 ++ [buffer_after W k];
                 objects := <[i := resize 6 row]> (objects st1) |}).
  assert (Hst2 : loader_state W sp (S k) st2)
    by by apply (loader_state_ext _ _ _ st1).
  assert (Hrow2 : objects st2 !! i = Some (resize 6 row)).
  { apply list_lookup_insert_eq. rewrite Hobjs1. by eapply lookup_lt_Some. }
  destruct (read_fields_exact W sp i 6 0 (S k) st2 _ Hst2 Hrow2
              ltac:(rewrite length_resize; lia))
    as (st' & row' & -> & Hst' & Hids' & Hobjs' & Hlen' & _ & Hfields).
  exists st', row'. split; [reflexivity|].
  rewrite length_resize in Hlen'.
  replace (k + 7) with (S k + 6) by lia.
  split_and!; try done.
  - by rewrite Hids', <- Hids1.
  - rewrite Hobjs'. subst st2. simpl. rewrite Hobjs1.
    apply list_insert_insert_eq.
  - intros m old Hm Hold.
    replace (k + 1 + m) with (S k + m) by lia. by apply (Hfields m old).
Qed.

(** The six numbers of the record whose name is word [p]. *)
Lemma six_numbers (W : list (list ascii)) (sp : bool) (p : nat)
    (row' : list Q) :
  length row' = 6 →
  (∀ m old, m < 6 → resize 6 [] !! m = Some old →
     row' !! m = Some (stored_after atof W sp (p + 1 + m) old)) →
  row' = map (λ m, stored_after atof W sp (p + 1 + m) 0) (seq 0 6).
Proof.
  intros Hlen Hf.
  destruct row' as [|a0 [|a1 [|a2 [|a3 [|a4 [|a5 [|]]]]]]];
    try discriminate Hlen.
  pose proof (Hf 0 0%Q ltac:(lia) eq_refl) as H0.
  pose proof (Hf 1 0%Q ltac:(lia) eq_refl) as H1.
  pose proof (Hf 2 0%Q ltac:(lia) eq_refl) as H2.
  pose proof (Hf 3 0%Q ltac:(lia) eq_refl) as H3.
  pose proof (Hf 4 0%Q ltac:(lia) eq_refl) as H4.
  pose proof (Hf 5 0%Q ltac:(lia) eq_refl) as H5.
  simpl in *. congruence.
Qed.

Lemma map_seq_S {A : Type} (f : nat → A) (n : nat) :
  map f (seq 0 (S n)) = f 0 :: map (λ m, f (S m)) (seq 0 n).
Proof. simpl. f_equal. by rewrite <- seq_shift, map_map. Qed.

Lemma read_records_exact (W : list (list ascii)) (sp : bool) (count : nat) :
  ∀ (i k : nat) (st : locals),
    loader_state W sp k st → i + count ≤ length (objects st) →
    (∀ n, n < count → objects st !! (i + n) = Some []) →
    ∃ st',
      read_records atof count i st = Ok st' ∧
      object_ids st'
      = object_ids st ++ map (λ n, buffer_after W (k + 7 * n)) (seq 0 count) ∧
      length (objects st') = length (objects st) ∧
      (∀ q, q < i → objects st' !! q = objects st !! q) ∧
      (∀ n, n < count →
         objects st' !! (i + n)
         = Some (map (λ m, stored_after atof W sp (k + 7 * n + 1 + m) 0)
                     (seq 0 6))).
Proof.
  induction count as [|c IH]; intros i k st Hst Hlen Hempty.
  - exists st. simpl. rewrite app_nil_r. split_and!; try done.
    intros n Hn. lia.
  - cbn [read_records].
    pose proof (Hempty 0 ltac:(lia)) as Hrow. rewrite Nat.add_0_r in Hrow.
    destruct (read_record_exact W sp i k st [] Hst Hrow)
      as (st1 & row1 & -> & Hst1 & Hids1 & Hobjs1 & Hlen1 & Hf1).
    cbn [bind].
    assert (Hsize : length (objects st1) = length (objects st))
      by (by rewrite Hobjs1, length_insert).
    destruct (IH (S i) (k + 7) st1 Hst1 ltac:(lia)) as
      (st' & -> & Hids' & Hsize' & Hbefore & Hrows).
    { intros n Hn. rewrite Hobjs1, list_lookup_insert_ne by lia.
      replace (S i + n) with (i + S n) by lia. apply Hempty. lia. }
    exists st'. split; [reflexivity|]. split_and!.
    + rewrite Hids', Hids1, <- app_assoc, map_seq_S. simpl.
      rewrite Nat.add_0_r. do 2 f_equal.
      apply map_ext. intros n. f_equal. lia.
    + congruence.
    + intros q Hq. rewrite Hbefore by lia. rewrite Hobjs1.
      apply list_lookup_insert_ne. lia.
    + intros [|n] Hn.
      * rewrite Nat.add_0_r, Hbefore by lia. rewrite Hobjs1.
        rewrite list_lookup_insert_eq by lia. f_equal.
        rewrite (six_numbers W sp k row1 Hlen1 Hf1).
        apply map_ext. intros m. f_equal. lia.
      * replace (i + S n) with (S i + n) by lia.
        rewrite (Hrows n ltac:(lia)). f_equal.
        apply map_ext. intros m. f_equal. lia.
Qed.

(** ** The loader, word by word *)

Lemma getCollisionObjects_words (filename frame content : string)
    (W : list (list ascii)) :
  fs !! filename = Some content →
  tokens (list_ascii_of_string content) = W → W ≠ [] →
  Forall fits W →
  (0 ≤ atoi (buffer_after W 0))%Z →
  getCollisionObjects atoi atof now fs filename frame
  = Ok (boxes_of_words atoi atof now frame W
          (ends_in_space (list_ascii_of_string content))).
Proof.
  intros Hfile Htok Hne Hfits Hn.
  destruct W as [|t0 ts]; [done|].
  set (W := t0 :: ts) in *.
  set (sp := ends_in_space (list_ascii_of_string content)).
  assert (Hb0 : buffer_after W 0 = c_str t0) by (by apply buffer_after_word).
  pose proof Hfits as [Hfit0 Hfits']%Forall_cons.
  unfold getCollisionObjects. rewrite (fopen_Some _ _ _ Hfile).
  unfold scan at 1. cbn [fCfg sTemp object_ids objects].
  destruct (fscanf_s_word_exact
              {| rest := list_ascii_of_string content; eof := false |}
              None t0 ts Htok Hfit0) as (r & -> & Hr & Hre & Hlast).
  cbn [bind fCfg sTemp read_buf eof orb rest] in *.
  rewrite <- Hb0.
  destruct (Z.ltb_spec (atoi (buffer_after W 0)) 0) as [Hneg|_]; [lia|].
  set (n := Z.to_nat (atoi (buffer_after W 0))).
  set (st2 := {| fCfg := _; sTemp := _; object_ids := []; objects := _ |}).
  assert (Hst : loader_state W sp 1 st2).
  { unfold loader_state. split_and!.
    - lia.
    - unfold loader_inv. split_and!; try done. subst st2. simpl.
      by destruct r.
    - subst st2. simpl. by rewrite Hb0.
    - exact Hre.
    - subst st2. simpl. split.
      + intros Hnil. right. destruct r; [|done].
        assert (ts = []) as -> by (by rewrite tokens_nil in Hr).
        split; [done|]. by apply Hlast.
      + intros [Hlt|[Hone Hfalse]]; [simpl in Hlt; lia|].
        assert (ts = []) as -> by (destruct ts; [done|discriminate Hone]).
        by rewrite (proj2 (Hlast eq_refl) Hfalse). }
  assert (Hsize : length (objects st2) = n) by apply length_replicate.
  destruct (read_records_exact W sp n 0 1 st2 Hst ltac:(lia))
    as (st3 & -> & Hids & Hobjs & _ & Hrows).
  { intros q Hq. by apply lookup_replicate_2. }
  cbn [bind]. simpl in Hids.
  assert (Hidl : length (object_ids st3) = n)
    by (by rewrite Hids, length_map, length_seq).
  destruct (getCollisionCubes_spec now (objects st3) (object_ids st3) frame)
    as (cubes & -> & Hlen & Hcubes).
  { lia. }
  { intros q Hq. pose proof (Hrows q ltac:(lia)) as Hq'.
    change (0 + q) with q in Hq'. rewrite Hq'. eexists. split; [done|].
    by rewrite length_map, length_seq. }
  f_equal. apply list_eq. intros i.
  unfold boxes_of_words. fold W. fold n. rewrite list_lookup_fmap.
  destruct (decide (i < n)) as [Hi|Hi].
  - rewrite (lookup_seq_lt _ _ _ Hi). simpl.
    destruct (Hcubes i ltac:(lia))
      as (row & id & px & py & pz & d0 & d1 & d2 & Hrow & Hid & Hsix & ->).
    f_equal. pose proof (Hrows i Hi) as Hri.
    change (0 + i) with i in Hri. rewrite Hri in Hrow.
    injection Hrow as <-. cbn [map seq] in Hsix.
    injection Hsix as <- <- <- <- <- <-.
    rewrite Hids in Hid.
    rewrite list_lookup_fmap, (lookup_seq_lt _ _ _ Hi) in Hid.
    simpl in Hid. injection Hid as <-.
    unfold box_of_words. f_equal; f_equal; lia.
  - rewrite lookup_ge_None_2 by lia.
    by rewrite lookup_ge_None_2 by (rewrite length_seq; lia).
Qed.

Lemma boxes_of_words_lookup (frame : string) (W : list (list ascii))
    (sp : bool) (i : nat) :
  i < Z.to_nat (atoi (buffer_after W 0)) →
  boxes_of_words atoi atof now frame W sp !! i
  = Some (box_of_words atof now frame W sp i).
Proof.
  intros Hi. unfold boxes_of_words.
  by rewrite list_lookup_fmap, (lookup_seq_lt _ _ _ Hi).
Qed.

Lemma boxes_of_words_length (frame : string) (W : list (list ascii))
    (sp : bool) :
  length (boxes_of_words atoi atof now frame W sp)
  = Z.to_nat (atoi (buffer_after W 0)).
Proof. unfold boxes_of_words. by rewrite length_map, length_seq. Qed.

Lemma box_of_words_number (frame : string) (W : list (list ascii))
    (sp : bool) (i j : nat) :
  j < 6 →
  numbers_of (box_of_words atof now frame W sp i) !! j
  = Some (stored_after atof W sp (7 * i + 2 + j) 0).
Proof.
  intros Hj. unfold box_of_words, numbers_of. cbn [cube_of poses shapes
    position dimensions x y z app].
  do 6 (destruct j as [|j]; [simpl; do 2 f_equal; lia|]). lia.
Qed.

(** X. The loader is a function of the words of the file and of whether the
    file ends in white space: for a file whose first word is a count
    [n >= 0], box [i] is named by word [7 i + 1] and holds what [atof] makes
    of the words [7 i + 2] to [7 i + 7], in that order; a missing number is
    0, a missing name is the last word read, and the last word of a file
    that does not end in white space is not stored. *)
Theorem getCollisionObjects_by_words (filename frame content : string)
    (W : list (list ascii)) :
  fs !! filename = Some content →
  tokens (list_ascii_of_string content) = W → W ≠ [] →
  Forall fits W →
  (0 ≤ atoi (buffer_after W 0))%Z →
  getCollisionObjects atoi atof now fs filename frame
  = Ok (boxes_of_words atoi atof now frame W
          (ends_in_space (list_ascii_of_string content))).
Proof. apply getCollisionObjects_words. Qed.

(** X. Two files with the same words, both ending in white space or both
    not, load the same boxes: the amount and kind of white space between
    the words does not matter. *)
Theorem getCollisionObjects_white_space (file1 file2 frame : string)
    (content1 content2 : string) (W : list (list ascii)) :
  fs !! file1 = Some content1 → fs !! file2 = Some content2 →
  tokens (list_ascii_of_string content1) = W →
  tokens (list_ascii_of_string content2) = W →
  ends_in_space (list_ascii_of_string content1)
  = ends_in_space (list_ascii_of_string content2) →
  W ≠ [] → Forall fits W →
  (0 ≤ atoi (buffer_after W 0))%Z →
  getCollisionObjects atoi atof now fs file1 frame
  = getCollisionObjects atoi atof now fs file2 frame.
Proof.
  intros H1 H2 Ht1 Ht2 Hsp Hne Hfits Hn.
  rewrite (getCollisionObjects_words _ frame _ W H1 Ht1 Hne Hfits Hn).
  rewrite (getCollisionObjects_words _ frame _ W H2 Ht2 Hne Hfits Hn).
  by rewrite Hsp.
Qed.

(** X. When the file ends in white space, every number is read: number [j]
    of box [i] is what [atof] makes of word [7 i + 2 + j] (the value is 0
    when the word is missing or empty as a C string). *)
Theorem getCollisionObjects_reads_numbers (filename frame content : string)
    (W : list (list ascii)) :
  fs !! filename = Some content →
  tokens (list_ascii_of_string content) = W → W ≠ [] →
  Forall fits W →
  (0 ≤ atoi (buffer_after W 0))%Z →
  ends_in_space (list_ascii_of_string content) = true →
  ∃ objs,
    getCollisionObjects atoi atof now fs filename frame = Ok objs ∧
    length objs = Z.to_nat (atoi (buffer_after W 0)) ∧
    ∀ i j, i < Z.to_nat (atoi (buffer_after W 0)) → j < 6 →
      ∃ o, objs !! i = Some o ∧
           numbers_of o !! j
           = Some (field_after atof (W !! (7 * i + 2 + j)) 0).
Proof.
  intros Hfile Htok Hne Hfits Hn Hsp.
  eexists. split; [by apply getCollisionObjects_words|].
  split; [apply boxes_of_words_length|].
  intros i j Hi Hj. eexists. split; [by apply boxes_of_words_lookup|].
  rewrite box_of_words_number by done. f_equal.
  unfold stored_after. rewrite Hsp, andb_false_r.
  by destruct (W !! (7 * i + 2 + j)).
Qed.

(** X. When the file does not end in white space, its last word is not
    stored: if that word is number [j] of box [i], the number is 0. *)
Theorem getCollisionObjects_drops_last_number
    (filename frame content : string) (W : list (list ascii)) (i j : nat) :
  fs !! filename = Some content →
  tokens (list_ascii_of_string content) = W →
  Forall fits W →
  (0 ≤ atoi (buffer_after W 0))%Z →
  ends_in_space (list_ascii_of_string content) = false →
  i < Z.to_nat (atoi (buffer_after W 0)) → j < 6 →
  length W = 7 * i + 3 + j →
  ∃ objs o,
    getCollisionObjects atoi atof now fs filename frame = Ok objs ∧
    objs !! i = Some o ∧ numbers_of o !! j = Some 0%Q.
Proof.
  intros Hfile Htok Hfits Hn Hsp Hi Hj Hlast.
  assert (Hne : W ≠ []) by (intros ->; simpl in Hlast; lia).
  eexists _, _. split; [by apply getCollisionObjects_words|].
  split; [by apply boxes_of_words_lookup|].
  rewrite box_of_words_number by done. f_equal.
  unfold stored_after. rewrite Hsp.
  destruct (W !! (7 * i + 2 + j)); [|done].
  replace (S (7 * i + 2 + j)) with (length W) by lia.
  by rewrite Nat.eqb_refl.
Qed.

(** X. A box whose name is missing, because the file ends before its
    record, is named after the last word of the file. *)
Theorem getCollisionObjects_missing_name (filename frame content : string)
    (W : list (list ascii)) (i : nat) (t : list ascii) :
  fs !! filename = Some content →
  tokens (list_ascii_of_string content) = W →
  Forall fits W →
  (0 ≤ atoi (buffer_after W 0))%Z →
  i < Z.to_nat (atoi (buffer_after W 0)) →
  length W ≤ 7 * i + 1 → last W = Some t →
  ∃ objs o,
    getCollisionObjects atoi atof now fs filename frame = Ok objs ∧
    objs !! i = Some o ∧ object_id o = c_str t.
Proof.
  intros Hfile Htok Hfits Hn Hi Hshort Hlast.
  assert (Hne : W ≠ []) by (by intros ->).
  eexists _, _. split; [by apply getCollisionObjects_words|].
  split; [by apply boxes_of_words_lookup|].
  unfold box_of_words, cube_of, buffer_after. simpl object_id.
  rewrite Nat.min_r by lia. rewrite last_lookup in Hlast.
  replace (length W - 1) with (pred (length W)) by lia.
  by rewrite (nth_lookup_Some _ _ _ _ Hlast).
Qed.


End Boxes.

(** ** [fillJointState] *)

(** X. [fillJointState] keeps a joint state consistent: when the angles and
    the names differ in number the state is left as it is, otherwise names
    and positions are replaced together; either way the state has as many
    names as positions afterwards if it had before, and its velocities,
    efforts and stamp are untouched. *)
Theorem fillJointState_consistent (angles : list Q) (joint_names : list string)
    (frame : string) (state : JointState) :
  let state' := fillJointState angles joint_names frame state in
  (length angles ≠ length joint_names → state' = state) ∧
  (length angles = length joint_names →
   js_name state' = joint_names ∧ js_position state' = angles ∧
   js_frame_id state' = frame) ∧
  (length (js_name state) = length (js_position state) →
   length (js_name state') = length (js_position state')) ∧
  js_velocity state' = js_velocity state ∧
  js_effort state' = js_effort state ∧
  js_stamp state' = js_stamp state.
Proof.
  unfold fillJointState.
  destruct (Nat.eqb_spec (length angles) (length joint_names)) as [He|Hne];
    simpl; split_and!; try done.
Qed.

(** ** [fillConstraint] *)

Lemma length_vresize {A : Type} (n : nat) (d : A) (v : list A) :
  length (vresize n d v) = n.
Proof. unfold vresize. rewrite length_app, length_take, length_replicate. lia. Qed.

Lemma vresize_id {A : Type} (n : nat) (d : A) (v : list A) :
  length v = n → vresize n d v = v.
Proof.
  intros <-. unfold vresize.
  by rewrite firstn_all, Nat.sub_diag, app_nil_r.
Qed.

Lemma vresize_lookup {A : Type} (n : nat) (d a : A) (v : list A) (k : nat) :
  k < n → v !! k = Some a → vresize n d v !! k = Some a.
Proof.
  intros Hk Hv. unfold vresize.
  pose proof (lookup_lt_Some _ _ _ Hv) as Hlt.
  rewrite lookup_app_l by (rewrite length_take; lia).
  by rewrite lookup_take_lt.
Qed.

Section GoalProperties.

Variable rpyToQuatMsg : Q → Q → Q → Quaternion.

Lemma fillConstraint_six (frame : string) (goals : Constraints)
    (p0 p1 p2 p3 p4 p5 : Q) (more : list Q) :
  ∃ pc oc,
    vresize 1 new_PositionConstraint (position_constraints goals) = [pc] ∧
    vresize 1 new_OrientationConstraint (orientation_constraints goals) = [oc] ∧
    fillConstraint rpyToQuatMsg (p0 :: p1 :: p2 :: p3 :: p4 :: p5 :: more)
      frame goals
    = Ok {| position_constraints :=
              [{| pc_frame_id := frame;
                  pc_position := {| x := p0; y := p1; z := p2 |};
                  pc_dimensions := vresize 3 (1 # 100) (pc_dimensions pc) |}];
            orientation_constraints :=
              [{| oc_frame_id := oc_frame_id oc;
                  oc_orientation := rpyToQuatMsg p3 p4 p5;
                  oc_roll_tolerance := 5 # 100;
                  oc_pitch_tolerance := 5 # 100;
                  oc_yaw_tolerance := 5 # 100 |}] |}.
Proof.
  unfold fillConstraint. cbn [length Nat.ltb Nat.leb].
  destruct (position_constraints goals) as [|pc pcs];
    destruct (orientation_constraints goals) as [|oc ocs];
    eexists _, _; (split; [reflexivity|]); (split; reflexivity).
Qed.

(** X. [fillConstraint] never fails. A pose of fewer than six numbers
    leaves the goal as it is. Otherwise the goal gets exactly one position
    and one orientation constraint: the position is the first three
    numbers, in the frame given, with a region of three sizes, the
    orientation is what [rpyToQuatMsg] makes of the next three, with
    tolerances of 0.05; numbers after the sixth are ignored. The sizes are
    0.01 each for a goal without a position constraint; sizes that the
    first position constraint already had are kept. *)
Theorem fillConstraint_goal (pose : list Q) (frame : string)
    (goals : Constraints) :
  ∃ goals',
    fillConstraint rpyToQuatMsg pose frame goals = Ok goals' ∧
    (length pose < 6 → goals' = goals) ∧
    (6 ≤ length pose →
     fillConstraint rpyToQuatMsg (take 6 pose) frame goals = Ok goals' ∧
     ∃ pc oc,
       position_constraints goals' = [pc] ∧
       orientation_constraints goals' = [oc] ∧
       pc_frame_id pc = frame ∧
       [x (pc_position pc); y (pc_position pc); z (pc_position pc)]
       = take 3 pose ∧
       length (pc_dimensions pc) = 3 ∧
       (position_constraints goals = [] →
        pc_dimensions pc = [1 # 100; 1 # 100; 1 # 100]%Q) ∧
       (∀ old k d, head (position_constraints goals) = Some old → k < 3 →
          pc_dimensions old !! k = Some d → pc_dimensions pc !! k = Some d) ∧
       (∀ p3 p4 p5, take 3 (drop 3 pose) = [p3; p4; p5] →
          oc_orientation oc = rpyToQuatMsg p3 p4 p5) ∧
       oc_roll_tolerance oc = (5 # 100)%Q ∧
       oc_pitch_tolerance oc = (5 # 100)%Q ∧
       oc_yaw_tolerance oc = (5 # 100)%Q).
Proof.
  destruct (decide (length pose < 6)) as [Hshort|Hlong].
  - exists goals. unfold fillConstraint.
    destruct (Nat.ltb_spec (length pose) 6); [|lia].
    split_and!; try done. lia.
  - destruct pose as [|p0 [|p1 [|p2 [|p3 [|p4 [|p5 more]]]]]];
      try (simpl in Hlong; lia).
    destruct (fillConstraint_six frame goals p0 p1 p2 p3 p4 p5 more)
      as (pc & oc & Hpc & Hoc & Hfill).
    destruct (fillConstraint_six frame goals p0 p1 p2 p3 p4 p5 [])
      as (pc' & oc' & Hpc' & Hoc' & Hfill').
    assert (pc' = pc) as -> by congruence.
    assert (oc' = oc) as -> by congruence.
    eexists. split; [exact Hfill|]. split; [simpl; lia|]. intros _.
    split; [exact Hfill'|].
    eexists _, _. split; [reflexivity|]. split; [reflexivity|].
    cbn [pc_frame_id pc_position pc_dimensions oc_orientation
         oc_roll_tolerance oc_pitch_tolerance oc_yaw_tolerance x y z].
    split_and!; try done.
    + apply length_vresize.
    + intros Hnil. rewrite Hnil in Hpc. injection Hpc as <-. reflexivity.
    + intros old k d Hold Hk Hd.
      destruct (position_constraints goals) as [|q qs]; [discriminate|].
      injection Hold as ->. injection Hpc as <-.
      by apply vresize_lookup.
    + by intros ? ? ? [= <- <- <-].
Qed.

(** X. Filling a goal twice with the same pose and frame is the same as
    filling it once. *)
Theorem fillConstraint_twice (pose : list Q) (frame : string)
    (goals goals' : Constraints) :
  fillConstraint rpyToQuatMsg pose frame goals = Ok goals' →
  fillConstraint rpyToQuatMsg pose frame goals' = Ok goals'.
Proof.
  destruct (decide (length pose < 6)) as [Hshort|Hlong].
  - unfold fillConstraint.
    destruct (Nat.ltb_spec (length pose) 6); [|lia]. by intros [= <-].
  - destruct pose as [|p0 [|p1 [|p2 [|p3 [|p4 [|p5 more]]]]]];
      try (simpl in Hlong; lia).
    destruct (fillConstraint_six frame goals p0 p1 p2 p3 p4 p5 more)
      as (pc & oc & _ & _ & ->).
    intros [= <-].
    destruct (fillConstraint_six frame
      {| position_constraints :=
           [{| pc_frame_id := frame;
               pc_position := {| x := p0; y := p1; z := p2 |};
               pc_dimensions := vresize 3 (1 # 100) (pc_dimensions pc) |}];
         orientation_constraints :=
           [{| oc_frame_id := oc_frame_id oc;
               oc_orientation := rpyToQuatMsg p3 p4 p5;
               oc_roll_tolerance := 5 # 100;
               oc_pitch_tolerance := 5 # 100;
               oc_yaw_tolerance := 5 # 100 |}] |}
      p0 p1 p2 p3 p4 p5 more) as (pc2 & oc2 & Hpc2 & Hoc2 & ->).
    cbn in Hpc2, Hoc2. injection Hpc2 as <-. injection Hoc2 as <-.
    cbn [pc_dimensions oc_frame_id].
    by rewrite (vresize_id 3 _ (vresize 3 _ _)) by apply length_vresize.
Qed.

End GoalProperties.

(** ** The planning joints of [main] *)

Lemma tokens_fuel_nonempty (k : nat) (s : list ascii) :
  Forall (λ t, t ≠ []) (tokens_fuel k s).
Proof.
  revert s. induction k as [|k IH]; intros s; cbn [tokens_fuel]; [done|].
  destruct (skip_ws s) as [|c s1] eqn:Es; [done|].
  pose proof (skip_ws_head _ _ _ Es) as Hc.
  destruct (take_token (c :: s1)) as [t r] eqn:Et.
  apply Forall_cons. split; [|apply IH].
  simpl in Et. rewrite Hc in Et. destruct (take_token s1).
  by injection Et as <- _.
Qed.

Lemma length_string_of_list_ascii (t : list ascii) :
  String.length (string_of_list_ascii t) = length t.
Proof. induction t as [|c t IH]; simpl; [done|by rewrite IH]. Qed.

Lemma planning_joints_loop_words (fuel : nat) :
  ∀ (s : list ascii) (acc : list string),
    length s + 2 ≤ fuel →
    planning_joints_loop fuel
      {| ss_rest := s; eofbit := false; failbit := false |} acc
    = Some (acc ++ map string_of_list_ascii (tokens s)).
Proof.
  induction fuel as [|k IH]; intros s acc Hfuel; [lia|].
  cbn [planning_joints_loop good eofbit failbit negb andb].
  unfold extract. cbn [good eofbit failbit negb andb ss_rest].
  rewrite (tokens_unfold s).
  destruct (skip_ws s) as [|c s1] eqn:Es.
  - cbn [String.length Nat.eqb].
    destruct k as [|k]; [lia|]. simpl. by rewrite app_nil_r.
  - pose proof (skip_ws_length s) as Hlen. rewrite Es in Hlen.
    pose proof (skip_ws_head _ _ _ Es) as Hc.
    destruct (take_token (c :: s1)) as [t r] eqn:Et.
    pose proof (take_token_nonspace _ _ _ _ Hc Et) as Hr.
    assert (Ht : length t ≠ 0).
    { simpl in Et. rewrite Hc in Et. destruct (take_token s1).
      by injection Et as <- _. }
    rewrite length_string_of_list_ascii.
    destruct (Nat.eqb_spec (length t) 0) as [|_]; [done|].
    destruct r as [|b r].
    + destruct k as [|k]; [simpl in *; lia|].
      reflexivity.
    + rewrite IH by (simpl in *; lia). by rewrite <- app_assoc.
Qed.

(** X. The planning joints that [main] reads from the parameter are the
    white-space separated words of the string, in order; none of them is
    empty, and the loop ends within [length + 2] rounds. *)
Theorem planning_joints_of_words (joint_list : string) :
  planning_joints_of joint_list
  = Some (map string_of_list_ascii (tokens (list_ascii_of_string joint_list)))
  ∧ ∀ joints, planning_joints_of joint_list = Some joints →
      Forall (λ j, j ≠ EmptyString) joints.
Proof.
  assert (H : planning_joints_of joint_list
    = Some (map string_of_list_ascii
              (tokens (list_ascii_of_string joint_list)))).
  { unfold planning_joints_of.
    rewrite planning_joints_loop_words; [done|].
    assert (length (list_ascii_of_string joint_list)
            = String.length joint_list) as ->; [|lia].
    induction joint_list as [|c s IH]; simpl; [done|by rewrite IH]. }
  split; [exact H|]. intros joints. rewrite H. intros [= <-].
  apply Forall_fmap.
  eapply Forall_impl; [apply tokens_fuel_nonempty|].
  intros [|c t] Ht; [done|]. simpl. discriminate.
Qed.

(** ** The start state and the scene of [main] *)

(** X. [main] sets start angle 5 without a check: with fewer than six
    planning joints the write is past the end of [start_angles]. With six
    joints or more the joint state carries the joints with as many
    positions, the four set angles among zeros: [fillJointState] never
    takes its error branch there. *)
Theorem main_start_state_joints (planning_joints : list string)
    (planning_frame : string) (state : JointState) :
  (length planning_joints < 6 →
   main_start_state planning_joints planning_frame state = Err OutOfRange) ∧
  (6 ≤ length planning_joints →
   ∃ st,
     main_start_state planning_joints planning_frame state = Ok st ∧
     js_name st = planning_joints ∧
     js_frame_id st = planning_frame ∧
     js_position st
     = [0; 2 # 100; - (3 # 1000); - (42 # 100); 0; - (73 # 100)]%Q
       ++ replicate (length planning_joints - 6) 0%Q).
Proof.
  split.
  - intros Hshort.
    destruct planning_joints as [|j0 [|j1 [|j2 [|j3 [|j4 [|j5 more]]]]]];
      try reflexivity. simpl in Hshort. lia.
  - intros Hlong.
    destruct planning_joints as [|j0 [|j1 [|j2 [|j3 [|j4 [|j5 more]]]]]];
      try (simpl in Hlong; lia).
    eexists. unfold main_start_state, store_at.
    cbn [length replicate at_ lookup list_lookup bind list_insert insert].
    unfold fillJointState.
    cbn [length]. rewrite length_replicate, Nat.eqb_refl. cbn [negb].
    split; [reflexivity|]. simpl. by rewrite Nat.sub_0_r.
Qed.

Section Scene.

Variable atoi : string → Z.
Variable atof : string → Q.
Variable now : nat → Z.
Variable fs : gmap string string.

(** X. The scene of [main] has no collision objects when no object file is
    named; the objects it loads otherwise are all expressed in the planning
    frame, the frame that [main] gives to the grid with
    [setReferenceFrame]. *)
Theorem main_collision_objects_frame (object_filename planning_frame : string)
    (grid : sbpl_arm_planner.OccupancyGrid) (objs : list CollisionObject) :
  main_collision_objects atoi atof now fs object_filename planning_frame
  = Ok objs →
  (object_filename = EmptyString → objs = []) ∧
  ∀ o, o ∈ objs →
    frame_id o
    = sbpl_arm_planner.getReferenceFrame
        (sbpl_arm_planner.setReferenceFrame grid planning_frame).
Proof.
  intros H. split.
  - intros ->. by injection H as <-.
  - intros o [i Hi]%list_elem_of_lookup.
    unfold main_collision_objects in H.
    destruct object_filename as [|c s].
    + injection H as <-. by rewrite lookup_nil in Hi.
    + destruct (getCollisionObjects_inv _ _ _ _ _ _ _ H i o Hi)
        as (id & px & py & pz & d0 & d1 & d2 & ->).
      reflexivity.
Qed.

End Scene.

(** ** The properties at concrete inputs *)

Ltac words_fit :=
  match goal with
  | |- Forall fits ?l =>
      let l' := eval vm_compute in l in change (Forall fits l')
  end;
  repeat (apply Forall_cons; split; [unfold fits, sTemp_size; simpl; lia|]);
  by apply Forall_nil.

Lemma getCollisionCubes_rows_witness :
  ∃ cubes,
    getCollisionCubes LoaderExamples.now
      [[1; 2; 3; 4; 5; 6; 7]%Q; [0; 0; 0; 1; 1; 1]%Q] ["a"; "b"] "map"
    = Ok cubes ∧
    map object_id cubes = ["a"; "b"] ∧
    map numbers_of cubes = [[1; 2; 3; 4; 5; 6]%Q; [0; 0; 0; 1; 1; 1]%Q].
Proof.
  apply (getCollisionCubes_rows LoaderExamples.now
           [[1; 2; 3; 4; 5; 6; 7]%Q; [0; 0; 0; 1; 1; 1]%Q] ["a"; "b"] "map").
  - reflexivity.
  - repeat (apply Forall_cons; split; [simpl; lia|]). by apply Forall_nil.
Defined.

Lemma getCollisionObjects_boxes_witness :
  ∃ o,
    frame_id o = "map" ∧ operation o = ADD ∧
    stamp o = LoaderExamples.now 0 ∧
    (∃ d0 d1 d2, shapes o = [{| type := BOX; dimensions := [d0; d1; d2] |}]) ∧
    (∃ p, poses o = [{| position := p;
                        orientation :=
                          {| qx := 0; qy := 0; qz := 0; qw := 1 |} |}]).
Proof.
  eexists.
  apply (getCollisionObjects_boxes LoaderExamples.atoi LoaderExamples.atof
           LoaderExamples.now MoreExamples.disk "box.txt" "map"
           [cube_of 0 "map" "box" 1 2 3 (1 # 2) (1 # 4) (1 # 8)]
           ltac:(by vm_compute) 0).
  reflexivity.
Defined.

Lemma getCollisionObjects_no_words_witness :
  getCollisionObjects LoaderExamples.atoi LoaderExamples.atof
    LoaderExamples.now MoreExamples.disk "blank.txt" "map"
  = Err UninitializedRead.
Proof.
  apply (getCollisionObjects_no_words LoaderExamples.atoi LoaderExamples.atof
           LoaderExamples.now MoreExamples.disk "blank.txt" "map" "   ");
    by vm_compute.
Defined.

Lemma getCollisionObjects_negative_count_witness :
  getCollisionObjects LoaderExamples.atoi LoaderExamples.atof
    LoaderExamples.now MoreExamples.disk "negative.txt" "map"
  = Err LengthError.
Proof.
  apply (getCollisionObjects_negative_count LoaderExamples.atoi
           LoaderExamples.atof LoaderExamples.now MoreExamples.disk
           "negative.txt" "map" "-2 box 1 2 3 4 5 6 "
           (list_ascii_of_string "-2")
           (tail (tokens (list_ascii_of_string "-2 box 1 2 3 4 5 6 ")))).
  - by vm_compute.
  - by vm_compute.
  - unfold fits, sTemp_size. simpl. lia.
  - by vm_compute.
Defined.

Lemma getCollisionObjects_by_words_witness :
  getCollisionObjects LoaderExamples.atoi LoaderExamples.atof
    LoaderExamples.now MoreExamples.disk "box_no_blank.txt" "map"
  = Ok (boxes_of_words LoaderExamples.atoi LoaderExamples.atof
          LoaderExamples.now "map"
          (tokens (list_ascii_of_string "1 box 1 2 3 0.5 0.25 0.125"))
          (ends_in_space (list_ascii_of_string "1 box 1 2 3 0.5 0.25 0.125"))).
Proof.
  apply (getCollisionObjects_by_words LoaderExamples.atoi LoaderExamples.atof
           LoaderExamples.now MoreExamples.disk "box_no_blank.txt" "map"
           "1 box 1 2 3 0.5 0.25 0.125").
  - by vm_compute.
  - reflexivity.
  - by vm_compute.
  - words_fit.
  - by vm_compute.
Defined.

Lemma getCollisionObjects_white_space_witness :
  getCollisionObjects LoaderExamples.atoi LoaderExamples.atof
    LoaderExamples.now MoreExamples.disk "box.txt" "map"
  = getCollisionObjects LoaderExamples.atoi LoaderExamples.atof
      LoaderExamples.now MoreExamples.disk "box_spread.txt" "map".
Proof.
  apply (getCollisionObjects_white_space LoaderExamples.atoi
           LoaderExamples.atof LoaderExamples.now MoreExamples.disk
           "box.txt" "box_spread.txt" "map"
           "1 box 1 2 3 0.5 0.25 0.125 "
           "  1   box 1 2  3 0.5   0.25 0.125   "
           (tokens (list_ascii_of_string "1 box 1 2 3 0.5 0.25 0.125 "))).
  - by vm_compute.
  - by vm_compute.
  - reflexivity.
  - by vm_compute.
  - by vm_compute.
  - by vm_compute.
  - words_fit.
  - by vm_compute.
Defined.

Lemma getCollisionObjects_reads_numbers_witness :
  ∃ objs o,
    getCollisionObjects LoaderExamples.atoi LoaderExamples.atof
      LoaderExamples.now MoreExamples.disk "box.txt" "map" = Ok objs ∧
    objs !! 0 = Some o ∧
    numbers_of o !! 5 = Some (LoaderExamples.atof "0.125").
Proof.
  destruct (getCollisionObjects_reads_numbers LoaderExamples.atoi
              LoaderExamples.atof LoaderExamples.now MoreExamples.disk
              "box.txt" "map" "1 box 1 2 3 0.5 0.25 0.125 "
              (tokens (list_ascii_of_string "1 box 1 2 3 0.5 0.25 0.125 ")))
    as (objs & Hobjs & _ & Hnum).
  - by vm_compute.
  - reflexivity.
  - by vm_compute.
  - words_fit.
  - by vm_compute.
  - by vm_compute.
  - destruct (Hnum 0 5) as (o & Ho & Hv); [vm_compute; lia|lia|].
    exists objs, o. split; [exact Hobjs|]. split; [exact Ho|exact Hv].
Defined.

Lemma getCollisionObjects_drops_last_number_witness :
  ∃ objs o,
    getCollisionObjects LoaderExamples.atoi LoaderExamples.atof
      LoaderExamples.now MoreExamples.disk "box_no_blank.txt" "map" = Ok objs ∧
    objs !! 0 = Some o ∧ numbers_of o !! 5 = Some 0%Q.
Proof.
  apply (getCollisionObjects_drops_last_number LoaderExamples.atoi
           LoaderExamples.atof LoaderExamples.now MoreExamples.disk
           "box_no_blank.txt" "map" "1 box 1 2 3 0.5 0.25 0.125"
           (tokens (list_ascii_of_string "1 box 1 2 3 0.5 0.25 0.125"))
           0 5).
  - by vm_compute.
  - reflexivity.
  - words_fit.
  - by vm_compute.
  - by vm_compute.
  - vm_compute. lia.
  - lia.
  - by vm_compute.
Defined.

Lemma getCollisionObjects_missing_name_witness :
  ∃ objs o,
    getCollisionObjects LoaderExamples.atoi LoaderExamples.atof
      LoaderExamples.now LoaderExamples.disk "objects.txt" "map" = Ok objs ∧
    objs !! 2 = Some o ∧ object_id o = "2".
Proof.
  apply (getCollisionObjects_missing_name LoaderExamples.atoi
           LoaderExamples.atof LoaderExamples.now LoaderExamples.disk
           "objects.txt" "map" LoaderExamples.truncated_file
           (tokens (list_ascii_of_string LoaderExamples.truncated_file))
           2 (list_ascii_of_string "2")).
  - by vm_compute.
  - reflexivity.
  - words_fit.
  - by vm_compute.
  - vm_compute. lia.
  - vm_compute. lia.
  - by vm_compute.
Defined.

Lemma fillJointState_consistent_witness :
  fillJointState [1; 2]%Q ["a"] "map" MoreExamples.fresh_JointState
  = MoreExamples.fresh_JointState ∧
  js_name (fillJointState [1; 2]%Q ["a"; "b"] "map"
             MoreExamples.fresh_JointState) = ["a"; "b"].
Proof.
  split.
  - apply (fillJointState_consistent [1; 2]%Q ["a"] "map"
             MoreExamples.fresh_JointState). simpl. lia.
  - apply (fillJointState_consistent [1; 2]%Q ["a"; "b"] "map"
             MoreExamples.fresh_JointState). reflexivity.
Defined.

Lemma fillConstraint_goal_witness :
  ∃ goals',
    fillConstraint MoreExamples.rpy [1; 2; 3; 0; 0; 1; 7]%Q "map"
      MoreExamples.used_Constraints = Ok goals' ∧
    ∃ pc, position_constraints goals' = [pc] ∧
          pc_dimensions pc !! 0 = Some 1%Q.
Proof.
  destruct (fillConstraint_goal MoreExamples.rpy [1; 2; 3; 0; 0; 1; 7]%Q "map"
              MoreExamples.used_Constraints) as (goals' & Hfill & _ & Hlong).
  exists goals'. split; [exact Hfill|].
  destruct (Hlong ltac:(simpl; lia))
    as (_ & pc & oc & Hpc & _ & _ & _ & _ & _ & Hkept & _).
  exists pc. split; [exact Hpc|].
  apply (Hkept _ 0 1%Q eq_refl); [lia|reflexivity].
Defined.

Lemma fillConstraint_twice_witness :
  ∃ goals',
    fillConstraint MoreExamples.rpy [1; 2; 3; 0; 0; 1]%Q "map"
      MoreExamples.fresh_Constraints = Ok goals' ∧
    fillConstraint MoreExamples.rpy [1; 2; 3; 0; 0; 1]%Q "map" goals'
    = Ok goals'.
Proof.
  eexists. split; [reflexivity|].
  apply (fillConstraint_twice MoreExamples.rpy [1; 2; 3; 0; 0; 1]%Q "map"
           MoreExamples.fresh_Constraints).
  reflexivity.
Defined.

Lemma planning_joints_of_words_witness :
  ∃ joints,
    planning_joints_of MoreExamples.arm_joints = Some joints ∧
    length joints = 7 ∧ Forall (λ j, j ≠ EmptyString) joints.
Proof.
  destruct (planning_joints_of_words MoreExamples.arm_joints) as [Hw Hne].
  eexists. split; [exact Hw|]. split; [by vm_compute|].
  apply Hne. exact Hw.
Defined.

Lemma main_start_state_joints_witness :
  main_start_state ["a"; "b"; "c"; "d"; "e"] "map"
    MoreExamples.fresh_JointState = Err OutOfRange ∧
  ∃ st, main_start_state ["a"; "b"; "c"; "d"; "e"; "f"; "g"] "map"
          MoreExamples.fresh_JointState = Ok st ∧
        js_name st = ["a"; "b"; "c"; "d"; "e"; "f"; "g"].
Proof.
  split.
  - apply (main_start_state_joints ["a"; "b"; "c"; "d"; "e"] "map"
             MoreExamples.fresh_JointState). simpl. lia.
  - destruct (proj2 (main_start_state_joints
                       ["a"; "b"; "c"; "d"; "e"; "f"; "g"] "map"
                       MoreExamples.fresh_JointState) ltac:(simpl; lia))
      as (st & Hst & Hname & _).
    exists st. split; [exact Hst|exact Hname].
Defined.

Lemma main_collision_objects_frame_witness :
  frame_id (cube_of 0 "map" "box" 1 2 3 (1 # 2) (1 # 4) (1 # 8))
  = sbpl_arm_planner.getReferenceFrame
      (sbpl_arm_planner.setReferenceFrame Examples.demo_grid0 "map").
Proof.
  apply (main_collision_objects_frame LoaderExamples.atoi LoaderExamples.atof
           LoaderExamples.now MoreExamples.disk "box.txt" "map"
           Examples.demo_grid0
           [cube_of 0 "map" "box" 1 2 3 (1 # 2) (1 # 4) (1 # 8)]).
  - by vm_compute.
  - apply list_elem_of_here.
Defined.




End CallPlannerSpec.
